(** * A circular-array lock-free queue: single producer, many consumers

    Shallow embedding of [lock_free_queue_impl.h] (the base class
    [ArrayLockFreeQueueBase]: constructor, [countToIndex], [size], [full])
    and of [lock_free_queue_impl_single_producer.h] (the specialisation
    [ArrayLockFreeQueue<ELEM_T, Q_SIZE, false>]: [push], [pop]).

    Two views of the same code are given.
    - A step-wise view: every access to a shared cell ([m_writeIndex],
      [m_readIndex], [m_count], a slot of [m_theQueue]) is one step of the
      calling thread, so that threads can be interleaved by a schedule.
    - A call-wise view: [push], [pop], [size] and [full] as functions on the
      queue, which is what a call does when no other thread runs meanwhile.
    The two are related by the [*_solo] lemmas. *)

From stdpp Require Import base list.
From Stdlib Require Import ZArith Lia Bool.

Open Scope Z_scope.

(** ** Machine arithmetic *)

(** [uint32_t] values are integers in [[0, 2^32)]; arithmetic on them wraps. *)
Definition u32 (z : Z) : Z := z mod 2 ^ 32.

Definition is_u32 (z : Z) : Prop := 0 <= z < 2 ^ 32.

(** Modelled from the spec: the macros [AtomicAdd], [AtomicSub] and [CAS]
    come from a header that is not among the sources.  The spec takes them as
    sequentially consistent fetch-and-add, subtract and compare-and-swap on one
    cell; each is given here by its effect on the cell (a [uint32_t]). *)
Definition AtomicAdd (cell n : Z) : Z := u32 (cell + n).

Definition AtomicSub (cell n : Z) : Z := u32 (cell - n).

Definition CAS (cell oldv newv : Z) : bool * Z :=
  if cell =? oldv then (true, newv) else (false, cell).

(** ** The shared object *)

(** Modelled from the spec: the class declaration is not among the sources.
    Its members are the array [m_theQueue] of [Q_SIZE] cells, the two
    [uint32_t] counters and, under [LOCK_FREE_Q_KEEP_REAL_SIZE], the counter
    [m_count] (taken to be a [uint32_t] as well).  Without that switch
    [m_count] does not exist; here the field is then never read nor written. *)
Record Queue (ELEM_T : Type) : Type := mkQueue {
  m_theQueue : list ELEM_T;
  m_writeIndex : Z;
  m_readIndex : Z;
  m_count : Z
}.

Arguments mkQueue {ELEM_T} _ _ _ _.
Arguments m_theQueue {ELEM_T} _.
Arguments m_writeIndex {ELEM_T} _.
Arguments m_readIndex {ELEM_T} _.
Arguments m_count {ELEM_T} _.

Section Model.

Context {ELEM_T : Type}.

(** Template parameter [Q_SIZE] and the compile-time switch
    [LOCK_FREE_Q_KEEP_REAL_SIZE]. *)
Variable Q_SIZE : Z.
Variable KEEP_REAL_SIZE : bool.

Definition set_theQueue (b : list ELEM_T) (q : Queue ELEM_T) : Queue ELEM_T :=
  mkQueue b (m_writeIndex q) (m_readIndex q) (m_count q).

Definition set_writeIndex (w : Z) (q : Queue ELEM_T) : Queue ELEM_T :=
  mkQueue (m_theQueue q) w (m_readIndex q) (m_count q).

Definition set_readIndex (r : Z) (q : Queue ELEM_T) : Queue ELEM_T :=
  mkQueue (m_theQueue q) (m_writeIndex q) r (m_count q).

Definition set_count (c : Z) (q : Queue ELEM_T) : Queue ELEM_T :=
  mkQueue (m_theQueue q) (m_writeIndex q) (m_readIndex q) c.

(** The constructor zeroes the two indices (and [m_count]); the cells of the
    array are whatever the array holds at construction, [cells]. *)
Definition ArrayLockFreeQueueBase (cells : list ELEM_T) : Queue ELEM_T :=
  mkQueue cells 0 0 0.

(** [return (a_count % Q_SIZE);] *)
Definition countToIndex (a_count : Z) : Z := a_count mod Q_SIZE.

(** [m_theQueue[i] = a_data] and [a_data = m_theQueue[i]].  Every index the
    code uses comes out of [countToIndex], hence is below [Q_SIZE]; outside the
    array (undefined in C++) the store changes nothing and the load leaves the
    destination as it was. *)
Definition store_slot (i : Z) (a_data : ELEM_T) (b : list ELEM_T) : list ELEM_T :=
  <[Z.to_nat i := a_data]> b.

Definition load_slot (i : Z) (b : list ELEM_T) (a_data : ELEM_T) : ELEM_T :=
  match b !! Z.to_nat i with
  | Some x => x
  | None => a_data
  end.

(** ** Call-wise view *)

(** [full()] *)
Definition full (q : Queue ELEM_T) : bool :=
  if KEEP_REAL_SIZE then m_count q =? u32 (Q_SIZE - 1)
  else
    let currentWriteIndex := m_writeIndex q in
    let currentReadIndex := m_readIndex q in
    if countToIndex (u32 (currentWriteIndex + 1)) =? countToIndex currentReadIndex
    then true
    else false.

(** The derived branch of [size()], on the two values it has read. *)
Definition size_of (currentWriteIndex currentReadIndex : Z) : Z :=
  if currentReadIndex <=? currentWriteIndex
  then u32 (currentWriteIndex - currentReadIndex)
  else u32 (u32 (Q_SIZE + currentWriteIndex) - currentReadIndex).

(** [size()] *)
Definition size (q : Queue ELEM_T) : Z :=
  if KEEP_REAL_SIZE then m_count q
  else
    let currentWriteIndex := m_writeIndex q in
    let currentReadIndex := m_readIndex q in
    size_of currentWriteIndex currentReadIndex.

(** [push(a_data)]: the result and the queue after the call. *)
Definition push (a_data : ELEM_T) (q : Queue ELEM_T) : bool * Queue ELEM_T :=
  let currentWriteIndex := m_writeIndex q in
  let currentReadIndex := m_readIndex q in
  if countToIndex (u32 (currentWriteIndex + 1)) =? countToIndex currentReadIndex
  then (false, q)
  else
    let q1 := set_theQueue
                (store_slot (countToIndex currentWriteIndex) a_data (m_theQueue q)) q in
    let q2 := set_writeIndex (AtomicAdd (m_writeIndex q1) 1) q1 in
    let q3 := if KEEP_REAL_SIZE then set_count (AtomicAdd (m_count q2) 1) q2 else q2 in
    (true, q3).

(** One pass through the body of the [do ... while(1)] of [pop].  [Some b] is
    [return b]; [None] is falling out of the body, back to the loop head. *)
Definition pop_body (q : Queue ELEM_T) (a_data : ELEM_T)
  : option bool * Queue ELEM_T * ELEM_T :=
  let currentMaximumReadIndex := m_writeIndex q in
  let currentReadIndex := m_readIndex q in
  if countToIndex currentReadIndex =? countToIndex currentMaximumReadIndex
  then (Some false, q, a_data)
  else
    let a_data' := load_slot (countToIndex currentReadIndex) (m_theQueue q) a_data in
    let '(swapped, r') := CAS (m_readIndex q) currentReadIndex (u32 (currentReadIndex + 1)) in
    let q1 := set_readIndex r' q in
    if swapped
    then
      let q2 := if KEEP_REAL_SIZE then set_count (AtomicSub (m_count q1) 1) q1 else q1 in
      (Some true, q2, a_data')
    else (None, q1, a_data').

(** The loop of [pop], cut after [fuel] passes ([None]: still looping). *)
Fixpoint pop_loop (fuel : nat) (q : Queue ELEM_T) (a_data : ELEM_T)
  : option (bool * Queue ELEM_T * ELEM_T) :=
  match fuel with
  | O => None
  | S fuel' =>
      match pop_body q a_data with
      | (Some b, q', a') => Some (b, q', a')
      | (None, q', a') => pop_loop fuel' q' a'
      end
  end.

(** [pop(a_data)]: the result, the queue and the caller's [a_data] after the
    call.  Run on its own the loop returns in its first pass ([pop_loop_pop]
    below), so the fall-back branch is never taken. *)
Definition pop (q : Queue ELEM_T) (a_data : ELEM_T) : bool * Queue ELEM_T * ELEM_T :=
  match pop_loop 1 q a_data with
  | Some res => res
  | None => (false, q, a_data)
  end.

(** ** Step-wise view *)

(** What a step did to the shared cells.  [EvAddWriteIndex x] is the
    [AtomicAdd] on [m_writeIndex] of the push that stored [x]; [EvCAS b x] is
    the [CAS] on [m_readIndex] of a pop that had copied [x] out. *)
Inductive Event : Type :=
| EvLoadWriteIndex (v : Z)
| EvLoadReadIndex (v : Z)
| EvLoadCount (v : Z)
| EvStoreSlot (i : Z) (x : ELEM_T)
| EvLoadSlot (i : Z) (x : ELEM_T)
| EvAddWriteIndex (x : ELEM_T)
| EvAddCount
| EvSubCount
| EvCAS (swapped : bool) (x : ELEM_T).

(** A thread inside one call: the statement it executes next (named by the
    line of its shared access) and the locals that are live there.  The [*Ret]
    points are the returns. *)
Inductive Thread : Type :=
| PushL47 (a_data : ELEM_T)
| PushL48 (a_data : ELEM_T) (currentWriteIndex : Z)
| PushL58 (a_data : ELEM_T) (currentWriteIndex : Z)
| PushL62 (a_data : ELEM_T)
| PushL66
| PushRet (r : bool)
| PopL83 (a_data : ELEM_T)
| PopL84 (a_data : ELEM_T) (currentMaximumReadIndex : Z)
| PopL96 (a_data : ELEM_T) (currentReadIndex : Z)
| PopL101 (a_data : ELEM_T) (currentReadIndex : Z)
| PopL107 (a_data : ELEM_T)
| PopRet (r : bool) (a_data : ELEM_T)
| SizeEntry
| SizeL76 (currentWriteIndex : Z)
| SizeRet (n : Z)
| FullEntry
| FullL109 (currentWriteIndex : Z)
| FullRet (r : bool).

(** One step of a thread on the shared queue; [None] once it has returned.
    A test on locals is taken together with the load that precedes it. *)
Definition step (q : Queue ELEM_T) (t : Thread)
  : option (Queue ELEM_T * Thread * Event) :=
  match t with
  | PushL47 a => Some (q, PushL48 a (m_writeIndex q), EvLoadWriteIndex (m_writeIndex q))
  | PushL48 a cwi =>
      let cri := m_readIndex q in
      Some (q,
            if countToIndex (u32 (cwi + 1)) =? countToIndex cri
            then PushRet false else PushL58 a cwi,
            EvLoadReadIndex cri)
  | PushL58 a cwi =>
      Some (set_theQueue (store_slot (countToIndex cwi) a (m_theQueue q)) q,
            PushL62 a, EvStoreSlot (countToIndex cwi) a)
  | PushL62 a =>
      Some (set_writeIndex (AtomicAdd (m_writeIndex q) 1) q,
            if KEEP_REAL_SIZE then PushL66 else PushRet true,
            EvAddWriteIndex a)
  | PushL66 => Some (set_count (AtomicAdd (m_count q) 1) q, PushRet true, EvAddCount)
  | PushRet _ => None
  | PopL83 a => Some (q, PopL84 a (m_writeIndex q), EvLoadWriteIndex (m_writeIndex q))
  | PopL84 a cmri =>
      let cri := m_readIndex q in
      Some (q,
            if countToIndex cri =? countToIndex cmri
            then PopRet false a else PopL96 a cri,
            EvLoadReadIndex cri)
  | PopL96 a cri =>
      let a' := load_slot (countToIndex cri) (m_theQueue q) a in
      Some (q, PopL101 a' cri, EvLoadSlot (countToIndex cri) a')
  | PopL101 a cri =>
      let '(swapped, r') := CAS (m_readIndex q) cri (u32 (cri + 1)) in
      Some (set_readIndex r' q,
            if swapped
            then (if KEEP_REAL_SIZE then PopL107 a else PopRet true a)
            else PopL83 a,
            EvCAS swapped a)
  | PopL107 a => Some (set_count (AtomicSub (m_count q) 1) q, PopRet true a, EvSubCount)
  | PopRet _ _ => None
  | SizeEntry =>
      if KEEP_REAL_SIZE
      then Some (q, SizeRet (m_count q), EvLoadCount (m_count q))
      else Some (q, SizeL76 (m_writeIndex q), EvLoadWriteIndex (m_writeIndex q))
  | SizeL76 cwi =>
      let cri := m_readIndex q in
      Some (q, SizeRet (size_of cwi cri), EvLoadReadIndex cri)
  | SizeRet _ => None
  | FullEntry =>
      if KEEP_REAL_SIZE
      then Some (q, FullRet (m_count q =? u32 (Q_SIZE - 1)), EvLoadCount (m_count q))
      else Some (q, FullL109 (m_writeIndex q), EvLoadWriteIndex (m_writeIndex q))
  | FullL109 cwi =>
      let cri := m_readIndex q in
      Some (q,
            FullRet (if countToIndex (u32 (cwi + 1)) =? countToIndex cri
                     then true else false),
            EvLoadReadIndex cri)
  | FullRet _ => None
  end.

(** A thread running with nobody else, for at most [n] steps: the queue, the
    point reached and the events, oldest first. *)
Fixpoint solo (n : nat) (q : Queue ELEM_T) (t : Thread)
  : Queue ELEM_T * Thread * list Event :=
  match n with
  | O => (q, t, [])
  | S n' =>
      match step q t with
      | None => (q, t, [])
      | Some (q', t', e) =>
          let '(q'', t'', es) := solo n' q' t' in (q'', t'', e :: es)
      end
  end.

(** Threads side by side: the shared queue, each thread's point, and the
    events so far with the thread they belong to. *)
Record System : Type := mkSystem {
  shared : Queue ELEM_T;
  threads : list Thread;
  history : list (nat * Event)
}.

(** The scheduler lets thread [i] take its next step (nothing happens when
    there is no such thread or it has returned). *)
Definition sched_step (s : System) (i : nat) : System :=
  match threads s !! i with
  | None => s
  | Some t =>
      match step (shared s) t with
      | None => s
      | Some (q', t', e) => mkSystem q' (<[i := t']> (threads s)) (history s ++ [(i, e)])
      end
  end.

Definition run_schedule (sch : list nat) (s : System) : System :=
  fold_left sched_step sch s.

(** The values handed out, in the order of the successful [CAS]es, and the
    values published, in the order of the [AtomicAdd]s on [m_writeIndex]. *)
Definition popped_values (h : list (nat * Event)) : list ELEM_T :=
  flat_map (fun ie => match snd ie with EvCAS true x => [x] | _ => [] end) h.

Definition pushed_values (h : list (nat * Event)) : list ELEM_T :=
  flat_map (fun ie => match snd ie with EvAddWriteIndex x => [x] | _ => [] end) h.

(** ** Sequences of calls *)

Inductive Call : Type :=
| CallPush (a_data : ELEM_T)
| CallPop (a_data : ELEM_T).

(** One call: whether it succeeded, and the queue after it. *)
Definition call (c : Call) (q : Queue ELEM_T) : bool * Queue ELEM_T :=
  match c with
  | CallPush a => push a q
  | CallPop a => (fst (fst (pop q a)), snd (fst (pop q a)))
  end.

(** The queue after a sequence of calls, one after the other. *)
Fixpoint run (cs : list Call) (q : Queue ELEM_T) : Queue ELEM_T :=
  match cs with
  | [] => q
  | c :: cs' => run cs' (snd (call c q))
  end.

(** Successful pushes and successful pops among the calls of [cs] on [q]. *)
Fixpoint pushes_ok (cs : list Call) (q : Queue ELEM_T) : Z :=
  match cs with
  | [] => 0
  | c :: cs' =>
      (match c with CallPush _ => if fst (call c q) then 1 else 0 | CallPop _ => 0 end)
      + pushes_ok cs' (snd (call c q))
  end.

Fixpoint pops_ok (cs : list Call) (q : Queue ELEM_T) : Z :=
  match cs with
  | [] => 0
  | c :: cs' =>
      (match c with CallPop _ => if fst (call c q) then 1 else 0 | CallPush _ => 0 end)
      + pops_ok cs' (snd (call c q))
  end.

(** Elements pushed and not yet popped after the calls [cs] on [q]. *)
Definition live (cs : list Call) (q : Queue ELEM_T) : Z :=
  pushes_ok cs q - pops_ok cs q.

(** The values taken in by the successful pushes among the calls [cs] on [q],
    and the values handed out by the successful pops, each in call order. *)
Fixpoint pushed_by (cs : list Call) (q : Queue ELEM_T) : list ELEM_T :=
  match cs with
  | [] => []
  | c :: cs' =>
      (match c with
       | CallPush a => if fst (push a q) then [a] else []
       | CallPop _ => []
       end) ++ pushed_by cs' (snd (call c q))
  end.

Fixpoint popped_by (cs : list Call) (q : Queue ELEM_T) : list ELEM_T :=
  match cs with
  | [] => []
  | c :: cs' =>
      (match c with
       | CallPop a => if fst (fst (pop q a)) then [snd (pop q a)] else []
       | CallPush _ => []
       end) ++ popped_by cs' (snd (call c q))
  end.

End Model.

Arguments Event : clear implicits.
Arguments Thread : clear implicits.
Arguments Call : clear implicits.
Arguments System : clear implicits.

(** ** Vocabulary of the properties *)

(** The slot that follows slot [i] going round an array of [n] cells. *)
Definition cyclic_succ (n i : Z) : Z := (i + 1) mod n.

(** The index relation of the full test of [push], and that of the empty test
    of [pop]. *)
Definition full_relation {ELEM_T} (Q_SIZE : Z) (q : Queue ELEM_T) : Prop :=
  countToIndex Q_SIZE (u32 (m_writeIndex q + 1)) = countToIndex Q_SIZE (m_readIndex q).

Definition empty_relation {ELEM_T} (Q_SIZE : Z) (q : Queue ELEM_T) : Prop :=
  countToIndex Q_SIZE (m_readIndex q) = countToIndex Q_SIZE (m_writeIndex q).

(** A queue as built by the constructor over an array of [Q_SIZE] cells. *)
Definition fresh {ELEM_T} (Q_SIZE : Z) (q : Queue ELEM_T) : Prop :=
  exists cells, length cells = Z.to_nat Q_SIZE /\ q = ArrayLockFreeQueueBase cells.

(** What a sequence of calls can make of a fresh queue. *)
Definition reachable {ELEM_T} (Q_SIZE : Z) (KEEP_REAL_SIZE : bool)
  (q : Queue ELEM_T) : Prop :=
  exists q0 cs, fresh Q_SIZE q0 /\ q = run Q_SIZE KEEP_REAL_SIZE cs q0.

(** All cells and counters are what their C++ types can hold. *)
Definition well_formed {ELEM_T} (Q_SIZE : Z) (q : Queue ELEM_T) : Prop :=
  length (m_theQueue q) = Z.to_nat Q_SIZE /\
  is_u32 (m_writeIndex q) /\ is_u32 (m_readIndex q) /\ is_u32 (m_count q).

(** The counters of [q] stand for [P] successful pushes and [C] successful
    pops: each index is its total wrapped to 32 bits, and so is [m_count] where
    it is kept. *)
Definition tracks {ELEM_T} (KEEP_REAL_SIZE : bool) (P C : Z) (q : Queue ELEM_T) : Prop :=
  m_writeIndex q = u32 P /\ m_readIndex q = u32 C /\
  (KEEP_REAL_SIZE = true -> m_count q = u32 (P - C)) /\
  0 <= C <= P /\ P - C < 2 ^ 32.

(** The cells of [q] hold the values [vs], oldest first, from the slot of
    counter [C] on. *)
Definition stores {ELEM_T} (Q_SIZE : Z) (q : Queue ELEM_T) (C : Z) (vs : list ELEM_T)
  : Prop :=
  forall j : nat, (j < length vs)%nat ->
    m_theQueue q !! Z.to_nat (countToIndex Q_SIZE (u32 (C + Z.of_nat j))) = vs !! j.

(** A consumer inside [pop] while nobody pushes: the write index is [W], the
    read index was [R0] when the consumers started and is [R] now.  What the
    thread has read so far is consistent with that. *)
Definition consumer_ok {ELEM_T} (Q_SIZE : Z) (cells : list ELEM_T) (W R0 R : Z)
  (t : Thread ELEM_T) : Prop :=
  match t with
  | PopL83 _ => True
  | PopL84 _ cmri => cmri = W
  | PopL96 _ cri => R0 <= cri <= R /\ cri < W
  | PopL101 a cri =>
      R0 <= cri <= R /\ cri < W /\
      cells !! Z.to_nat (countToIndex Q_SIZE cri) = Some a
  | PopL107 _ => True
  | PopRet ok _ => ok = false -> R = W
  | _ => False
  end.

(** Consumers at work on the queue [q0], which holds the values [vs]: the
    array and the write index are those of [q0], and the values handed out so
    far are the first [R - R0] of [vs]. *)
Definition consumers_inv {ELEM_T} (Q_SIZE : Z) (q0 : Queue ELEM_T) (vs : list ELEM_T)
  (s : System ELEM_T) : Prop :=
  let W := m_writeIndex q0 in
  let R0 := m_readIndex q0 in
  let R := m_readIndex (shared s) in
  m_theQueue (shared s) = m_theQueue q0 /\
  m_writeIndex (shared s) = W /\
  R0 <= R <= W /\
  Forall (consumer_ok Q_SIZE (m_theQueue q0) W R0 R) (threads s) /\
  popped_values (history s) = take (Z.to_nat (R - R0)) vs /\
  pushed_values (history s) = [].

(** [k] times a push followed by a pop. *)
Fixpoint cycles {ELEM_T} (k : nat) (a : ELEM_T) : list (Call ELEM_T) :=
  match k with
  | O => []
  | S k' => CallPush a :: CallPop a :: cycles k' a
  end.

(** [k] pushes in a row. *)
Definition pushes {ELEM_T} (k : nat) (a : ELEM_T) : list (Call ELEM_T) :=
  repeat (CallPush a) k.

(** ** The scenario of the specification

    Capacity 4: push A, B, C, then D (refused), pop, push D again, then four
    pops, the last of which finds the queue empty.  Letters by their codes. *)
Definition scenario : list (Call Z) :=
  [CallPush 65; CallPush 66; CallPush 67; CallPush 68; CallPop 0;
   CallPush 68; CallPop 0; CallPop 0; CallPop 0; CallPop 0].

(** ** A size query overtaken by the consumers

    The scenario told in the comment of [size()]: three pushes and two pops
    leave [m_writeIndex] at 3 and [m_readIndex] at 2; between the two loads of
    a [size()] call two elements go in and out. *)
Definition lapped_before : list (Call Z) :=
  [CallPush 1; CallPush 2; CallPush 3; CallPop 0; CallPop 0].

Definition lapped_between : list (Call Z) :=
  [CallPush 4; CallPop 0; CallPush 5; CallPop 0].

(** ** A race between two consumers and the producer

    Capacity 4 over [int]-like cells.  Thread 0 is the producer inside
    [push(10)]; threads 1 and 2 are consumers inside [pop].  Thread 1 takes its
    first step (line 83, the load of [m_writeIndex]), then the producer runs
    its push to the end, then thread 2 runs a whole pop, then thread 1 goes on.
    Steps scheduled for a thread that has returned do nothing, so the same
    schedule serves both settings of the size switch. *)
Definition race_start : System Z :=
  mkSystem (ArrayLockFreeQueueBase [91; 92; 93; 94])
    [PushL47 10; PopL83 0; PopL83 0] [].

Definition race_schedule : list nat :=
  [1; 0; 0; 0; 0; 0; 2; 2; 2; 2; 2; 1; 1; 1; 1]%nat.

(** ** Vocabulary of the further properties *)

(** The net change of [m_count] that the events of a history carry out. *)
Definition count_change {ELEM_T} (h : list (nat * Event ELEM_T)) : Z :=
  fold_left
    (fun n ie => match snd ie with
                 | EvAddCount => n + 1
                 | EvSubCount => n - 1
                 | _ => n
                 end) h 0.

(** The call a thread is in (or has returned from). *)
Definition in_push {ELEM_T} (t : Thread ELEM_T) : bool :=
  match t with
  | PushL47 _ | PushL48 _ _ | PushL58 _ _ | PushL62 _ | PushL66 | PushRet _ => true
  | _ => false
  end.

Definition in_pop {ELEM_T} (t : Thread ELEM_T) : bool :=
  match t with
  | PopL83 _ | PopL84 _ _ | PopL96 _ _ | PopL101 _ _ | PopL107 _ | PopRet _ _ => true
  | _ => false
  end.

(** The value of [m_readIndex] a thread holds in [currentReadIndex] between
    its load (line 84) and its compare-and-swap (line 101). *)
Definition read_index_held {ELEM_T} (t : Thread ELEM_T) : option Z :=
  match t with
  | PopL96 _ currentReadIndex | PopL101 _ currentReadIndex => Some currentReadIndex
  | _ => None
  end.

(** Some thread other than [i] won a compare-and-swap in [h]. *)
Definition another_claimed {ELEM_T} (i : nat) (h : list (nat * Event ELEM_T)) : bool :=
  existsb (fun je => negb (fst je =? i)%nat &&
                     match snd je with EvCAS true _ => true | _ => false end) h.

(** What thread [i] did in a history, oldest first. *)
Definition events_of {ELEM_T} (i : nat) (h : list (nat * Event ELEM_T))
  : list (Event ELEM_T) :=
  flat_map (fun je => if (fst je =? i)%nat then [snd je] else []) h.

(** What a thread has done since its load of [m_readIndex] (line 84): nothing
    before line 96, the copy of the cell before line 101. *)
Definition done_since_load {ELEM_T} (Q_SIZE : Z) (t : Thread ELEM_T)
  : list (Event ELEM_T) :=
  match t with
  | PopL101 a_data currentReadIndex =>
      [EvLoadSlot (countToIndex Q_SIZE currentReadIndex) a_data]
  | _ => []
  end.

(** The compare-and-swaps thread [i] lost, and those the other threads won. *)
Definition lost_by {ELEM_T} (i : nat) (h : list (nat * Event ELEM_T)) : nat :=
  length (flat_map (fun je => match snd je with
                              | EvCAS false x => if (fst je =? i)%nat then [x] else []
                              | _ => []
                              end) h).

Definition won_by_others {ELEM_T} (i : nat) (h : list (nat * Event ELEM_T)) : nat :=
  length (flat_map (fun je => match snd je with
                              | EvCAS true x => if (fst je =? i)%nat then [] else [x]
                              | _ => []
                              end) h).

(** Every lost compare-and-swap of a history ends a pass of the loop of
    [pop]: the thread loaded [m_readIndex], then did nothing but copy the
    cell of the value loaded, and meanwhile another thread won a
    compare-and-swap. *)
Definition failures_explained {ELEM_T} (Q_SIZE : Z) (h : list (nat * Event ELEM_T))
  : Prop :=
  forall h1 i a h2,
    h = h1 ++ (i, EvCAS false a) :: h2 ->
    exists h0 v hm,
      h1 = h0 ++ (i, EvLoadReadIndex v) :: hm /\
      events_of i hm = [EvLoadSlot (countToIndex Q_SIZE v) a] /\
      another_claimed i hm = true.

(** Every thread that holds a value of [m_readIndex] has loaded it and has
    since done what its point says; it had lost no more compare-and-swaps
    than the others had won before the load; and if the cell has moved
    since, another thread has won a compare-and-swap since. *)
Definition watching {ELEM_T} (Q_SIZE : Z) (s : System ELEM_T) : Prop :=
  forall i t cri,
    threads s !! i = Some t -> read_index_held t = Some cri ->
    exists h0 hm,
      history s = h0 ++ (i, EvLoadReadIndex cri) :: hm /\
      events_of i hm = done_since_load Q_SIZE t /\
      (lost_by i (history s) <= won_by_others i h0)%nat /\
      (m_readIndex (shared s) <> cri -> another_claimed i hm = true).

(** No thread has lost more compare-and-swaps than the others have won. *)
Definition retries_paid {ELEM_T} (h : list (nat * Event ELEM_T)) : Prop :=
  forall i, (lost_by i h <= won_by_others i h)%nat.



(** ** Threads that make one call after another *)

(** A caller: the call it is in, if any, and the calls it makes next. *)
Record Caller (ELEM_T : Type) : Type := mkCaller {
  inside : option (Thread ELEM_T);
  todo : list (Call ELEM_T)
}.

Arguments mkCaller {ELEM_T} _ _.
Arguments inside {ELEM_T} _.
Arguments todo {ELEM_T} _.

(** The first point of a call. *)
Definition enter {ELEM_T} (c : Call ELEM_T) : Thread ELEM_T :=
  match c with
  | CallPush a => PushL47 a
  | CallPop a => PopL83 a
  end.

(** The next step of a caller: that of the call it is in or, when it is in
    none or that call has returned, the first step of its next call. *)
Definition caller_step {ELEM_T} (Q_SIZE : Z) (KEEP_REAL_SIZE : bool)
  (q : Queue ELEM_T) (c : Caller ELEM_T)
  : option (Queue ELEM_T * Caller ELEM_T * Event ELEM_T) :=
  match match inside c with
        | Some t => step Q_SIZE KEEP_REAL_SIZE q t
        | None => None
        end with
  | Some (q', t', e) => Some (q', mkCaller (Some t') (todo c), e)
  | None =>
      match todo c with
      | [] => None
      | x :: xs =>
          match step Q_SIZE KEEP_REAL_SIZE q (enter x) with
          | Some (q', t', e) => Some (q', mkCaller (Some t') xs, e)
          | None => None
          end
      end
  end.

(** Callers side by side on one queue, with the events so far. *)
Record Crowd (ELEM_T : Type) : Type := mkCrowd {
  queue_of : Queue ELEM_T;
  callers : list (Caller ELEM_T);
  events : list (nat * Event ELEM_T)
}.

Arguments mkCrowd {ELEM_T} _ _ _.
Arguments queue_of {ELEM_T} _.
Arguments callers {ELEM_T} _.
Arguments events {ELEM_T} _.

Definition crowd_step {ELEM_T} (Q_SIZE : Z) (KEEP_REAL_SIZE : bool)
  (s : Crowd ELEM_T) (i : nat) : Crowd ELEM_T :=
  match callers s !! i with
  | None => s
  | Some c =>
      match caller_step Q_SIZE KEEP_REAL_SIZE (queue_of s) c with
      | None => s
      | Some (q', c', e) => mkCrowd q' (<[i := c']> (callers s)) (events s ++ [(i, e)])
      end
  end.

Definition run_crowd {ELEM_T} (Q_SIZE : Z) (KEEP_REAL_SIZE : bool)
  (sch : list nat) (s : Crowd ELEM_T) : Crowd ELEM_T :=
  fold_left (crowd_step Q_SIZE KEEP_REAL_SIZE) sch s.

(** One producer and one consumer: the producer pushes the values [vs] one
    call after the other, the consumer makes one [pop] call for each of
    [ds] (what its [a_data] holds before the call). *)
Definition one_producer_one_consumer {ELEM_T} (cells vs ds : list ELEM_T)
  : Crowd ELEM_T :=
  mkCrowd (ArrayLockFreeQueueBase cells)
    [mkCaller None (map CallPush vs); mkCaller None (map CallPop ds)] [].

(** Pushes of the producer that may still publish a value. *)
Definition unpublished {ELEM_T} (c : Caller ELEM_T) : Z :=
  match inside c with
  | Some (PushL47 _) | Some (PushL48 _ _) | Some (PushL58 _ _) | Some (PushL62 _) => 1
  | _ => 0
  end + Z.of_nat (length (todo c)).

(** What the shared cells say when [P] values have been published, [C] of
    them handed out, and [held] are the ones in between. *)
Definition spsc_shared {ELEM_T} (Q_SIZE : Z) (P C : Z) (held : list ELEM_T)
  (q : Queue ELEM_T) (h : list (nat * Event ELEM_T)) : Prop :=
  length (m_theQueue q) = Z.to_nat Q_SIZE /\
  m_writeIndex q = u32 P /\ m_readIndex q = u32 C /\
  0 <= C <= P /\ P - C <= Q_SIZE - 1 /\
  Z.of_nat (length held) = P - C /\
  stores Q_SIZE q C held /\
  pushed_values h = popped_values h ++ held.

(** What the producer knows at each point of [push]. *)
Definition producer_ok {ELEM_T} (Q_SIZE : Z) (q : Queue ELEM_T) (P C : Z)
  (t : option (Thread ELEM_T)) : Prop :=
  match t with
  | None | Some (PushL47 _) | Some PushL66 | Some (PushRet _) => True
  | Some (PushL48 _ cwi) => cwi = u32 P
  | Some (PushL58 _ cwi) => cwi = u32 P /\ P - C <= Q_SIZE - 2
  | Some (PushL62 a) =>
      P - C <= Q_SIZE - 2 /\
      m_theQueue q !! Z.to_nat (countToIndex Q_SIZE (u32 P)) = Some a
  | _ => False
  end.

(** What the only consumer knows at each point of [pop]. *)
Definition lone_consumer_ok {ELEM_T} (P C : Z) (held : list ELEM_T)
  (t : option (Thread ELEM_T)) : Prop :=
  match t with
  | None | Some (PopL83 _) | Some (PopL107 _) | Some (PopRet _ _) => True
  | Some (PopL84 _ cmri) => exists P', cmri = u32 P' /\ C <= P' <= P
  | Some (PopL96 _ cri) => cri = u32 C /\ C < P
  | Some (PopL101 a cri) => cri = u32 C /\ held !! 0%nat = Some a
  | _ => False
  end.

(** One producer and one consumer at work. *)
Definition spsc_inv {ELEM_T} (Q_SIZE : Z) (P C : Z) (held : list ELEM_T)
  (s : Crowd ELEM_T) : Prop :=
  exists prod cons,
    callers s = [prod; cons] /\
    spsc_shared Q_SIZE P C held (queue_of s) (events s) /\
    producer_ok Q_SIZE (queue_of s) P C (inside prod) /\
    Forall (fun c => exists a, c = CallPush a) (todo prod) /\
    lone_consumer_ok P C held (inside cons) /\
    Forall (fun c => exists a, c = CallPop a) (todo cons) /\
    ((Q_SIZE | 2 ^ 32) \/ P + unpublished prod < 2 ^ 32).

(** * Properties *)

(** ** Wrap-around and slots *)

Lemma u32_range (z : Z) : is_u32 (u32 z).
Proof. unfold is_u32, u32. apply Z.mod_pos_bound. reflexivity. Qed.

Lemma u32_small (z : Z) : is_u32 z -> u32 z = z.
Proof. unfold is_u32, u32. intros H. apply Z.mod_small. exact H. Qed.

Lemma u32_u32_add (x y : Z) : u32 (u32 x + y) = u32 (x + y).
Proof. unfold u32. apply Zplus_mod_idemp_l. Qed.

Lemma u32_u32_sub (x y : Z) : u32 (u32 x - u32 y) = u32 (x - y).
Proof. unfold u32. symmetry. apply Zminus_mod. Qed.

Lemma countToIndex_range (n c : Z) : 0 < n -> 0 <= countToIndex n c < n.
Proof. intros H. unfold countToIndex. apply Z.mod_pos_bound. exact H. Qed.

(** Two counters fall on the same slot exactly when their distance is a
    multiple of the capacity. *)
Lemma same_slot_iff (n x y : Z) :
  n <> 0 -> (x mod n = y mod n <-> (x - y) mod n = 0).
Proof.
  intros Hn. split; intros H.
  - rewrite Zminus_mod, H, Z.sub_diag. apply Z.mod_0_l. exact Hn.
  - replace x with (y + (x - y)) by ring.
    rewrite Zplus_mod, H, Z.add_0_r. apply Z.mod_mod. exact Hn.
Qed.

Lemma same_slot_near (n x y : Z) :
  0 < n -> 0 <= x - y <= n -> (x mod n = y mod n <-> x - y = 0 \/ x - y = n).
Proof.
  intros Hn Hd. rewrite same_slot_iff by lia. split.
  - intros H. destruct (Z.eq_dec (x - y) n) as [->|Hne]; [now right|left].
    rewrite Z.mod_small in H by lia. exact H.
  - intros [-> | ->]; [apply Z.mod_0_l; lia | apply Z.mod_same; lia].
Qed.

(** Where a counter has not wrapped, or where the capacity divides [2^32],
    the slot of the wrapped counter is the slot of the unwrapped one. *)
Lemma slot_u32 (n x : Z) :
  is_u32 x \/ (n | 2 ^ 32) -> countToIndex n (u32 x) = x mod n.
Proof.
  unfold countToIndex. intros [H | H].
  - now rewrite u32_small.
  - unfold u32. now apply Z.mod_mod_divide.
Qed.

(** ** What one call does *)

Lemma solo_returned {ELEM_T : Type} (n : Z) (k : bool) (m : nat)
  (q : Queue ELEM_T) (t : Thread ELEM_T) :
  step n k q t = None -> solo n k m q t = (q, t, []).
Proof. intros H. destruct m; simpl; [|rewrite H]; reflexivity. Qed.

Section Calls.

Context {ELEM_T : Type}.
Variable Q_SIZE : Z.
Variable KEEP_REAL_SIZE : bool.

Local Abbreviation slot := (countToIndex Q_SIZE).
Local Abbreviation push := (@push ELEM_T Q_SIZE KEEP_REAL_SIZE).
Local Abbreviation pop := (@pop ELEM_T Q_SIZE KEEP_REAL_SIZE).
Local Abbreviation pop_body := (@pop_body ELEM_T Q_SIZE KEEP_REAL_SIZE).
Local Abbreviation pop_loop := (@pop_loop ELEM_T Q_SIZE KEEP_REAL_SIZE).
Local Abbreviation solo := (@solo ELEM_T Q_SIZE KEEP_REAL_SIZE).

Lemma push_full_eq (a : ELEM_T) (q : Queue ELEM_T) :
  slot (u32 (m_writeIndex q + 1)) = slot (m_readIndex q) ->
  push a q = (false, q).
Proof.
  intros H. unfold push. rewrite H, Z.eqb_refl. reflexivity.
Qed.

Lemma push_ok_eq (a : ELEM_T) (q : Queue ELEM_T) :
  slot (u32 (m_writeIndex q + 1)) <> slot (m_readIndex q) ->
  push a q =
  (true,
   mkQueue (store_slot (slot (m_writeIndex q)) a (m_theQueue q))
           (u32 (m_writeIndex q + 1))
           (m_readIndex q)
           (if KEEP_REAL_SIZE then u32 (m_count q + 1) else m_count q)).
Proof.
  intros H. apply Z.eqb_neq in H. unfold push. rewrite H.
  destruct KEEP_REAL_SIZE; reflexivity.
Qed.

(** Alone, the [CAS] of [pop] finds [m_readIndex] as it was read three lines
    before, so a pass through the loop body always ends in a [return]. *)
Lemma pop_body_returns (q : Queue ELEM_T) (a : ELEM_T) :
  exists b, fst (fst (pop_body q a)) = Some b.
Proof.
  unfold pop_body, CAS.
  destruct (slot (m_readIndex q) =? slot (m_writeIndex q)).
  - now exists false.
  - rewrite Z.eqb_refl. now exists true.
Qed.

Lemma pop_loop_pop (n : nat) (q : Queue ELEM_T) (a : ELEM_T) :
  pop_loop (S n) q a = Some (pop q a).
Proof.
  unfold pop. simpl.
  destruct (pop_body_returns q a) as [b Hb].
  destruct (pop_body q a) as [[o q'] a']. simpl in Hb. subst o. reflexivity.
Qed.

Lemma pop_empty_eq (q : Queue ELEM_T) (a : ELEM_T) :
  slot (m_readIndex q) = slot (m_writeIndex q) ->
  pop q a = (false, q, a).
Proof.
  intros H. unfold pop, pop_loop, pop_body.
  rewrite H, Z.eqb_refl. reflexivity.
Qed.

Lemma pop_ok_eq (q : Queue ELEM_T) (a : ELEM_T) :
  slot (m_readIndex q) <> slot (m_writeIndex q) ->
  pop q a =
  (true,
   mkQueue (m_theQueue q) (m_writeIndex q) (u32 (m_readIndex q + 1))
           (if KEEP_REAL_SIZE then u32 (m_count q - 1) else m_count q),
   load_slot (slot (m_readIndex q)) (m_theQueue q) a).
Proof.
  intros H. apply Z.eqb_neq in H.
  unfold pop, pop_loop, pop_body, CAS.
  rewrite H, Z.eqb_refl. destruct KEEP_REAL_SIZE; reflexivity.
Qed.

(** The step-wise and the call-wise view agree on a thread that runs alone:
    five steps take a push or a pop to its return, two a query. *)
Lemma push_solo (n : nat) (a : ELEM_T) (q : Queue ELEM_T) :
  (5 <= n)%nat ->
  exists es, solo n q (PushL47 a) = (snd (push a q), PushRet (fst (push a q)), es).
Proof.
  intros Hn. do 5 (destruct n as [|n]; [lia|]).
  unfold push. simpl.
  destruct (slot (u32 (m_writeIndex q + 1)) =? slot (m_readIndex q)); simpl.
  - eexists. reflexivity.
  - destruct KEEP_REAL_SIZE; simpl; rewrite ?solo_returned by reflexivity;
      eexists; reflexivity.
Qed.

Lemma pop_solo (n : nat) (a : ELEM_T) (q : Queue ELEM_T) :
  (5 <= n)%nat ->
  exists es,
    solo n q (PopL83 a) =
    (snd (fst (pop q a)), PopRet (fst (fst (pop q a))) (snd (pop q a)), es).
Proof.
  intros Hn. do 5 (destruct n as [|n]; [lia|]).
  destruct (Z.eq_dec (slot (m_readIndex q)) (slot (m_writeIndex q))) as [H|H].
  - rewrite (pop_empty_eq _ _ H). simpl. rewrite H, Z.eqb_refl. simpl.
    rewrite ?solo_returned by reflexivity. eexists. reflexivity.
  - rewrite (pop_ok_eq _ _ H). apply Z.eqb_neq in H. simpl. rewrite H. simpl.
    unfold CAS. simpl. rewrite Z.eqb_refl.
    destruct KEEP_REAL_SIZE; simpl; rewrite ?solo_returned by reflexivity;
      eexists; reflexivity.
Qed.

Lemma full_solo (n : nat) (q : Queue ELEM_T) :
  (2 <= n)%nat ->
  exists es, solo n q FullEntry = (q, FullRet (full Q_SIZE KEEP_REAL_SIZE q), es).
Proof.
  intros Hn. do 2 (destruct n as [|n]; [lia|]).
  unfold full. simpl.
  destruct KEEP_REAL_SIZE; simpl; rewrite ?solo_returned by reflexivity;
    eexists; reflexivity.
Qed.

Lemma size_solo (n : nat) (q : Queue ELEM_T) :
  (2 <= n)%nat ->
  exists es, solo n q SizeEntry = (q, SizeRet (size Q_SIZE KEEP_REAL_SIZE q), es).
Proof.
  intros Hn. do 2 (destruct n as [|n]; [lia|]).
  unfold size. simpl.
  destruct KEEP_REAL_SIZE; simpl; rewrite ?solo_returned by reflexivity;
    eexists; reflexivity.
Qed.

End Calls.

(** The scenario of the specification runs as told there: four of the five
    pushes and four of the five pops succeed, and A, B, C, D come out in that
    order. *)
Example scenario_runs (KEEP_REAL_SIZE : bool) :
  let q0 := ArrayLockFreeQueueBase [0; 0; 0; 0] in
  fst (push 4 KEEP_REAL_SIZE 68
         (run 4 KEEP_REAL_SIZE [CallPush 65; CallPush 66; CallPush 67] q0)) = false /\
  pushed_by 4 KEEP_REAL_SIZE scenario q0 = [65; 66; 67; 68] /\
  popped_by 4 KEEP_REAL_SIZE scenario q0 = [65; 66; 67; 68] /\
  pushes_ok 4 KEEP_REAL_SIZE scenario q0 = 4 /\
  pops_ok 4 KEEP_REAL_SIZE scenario q0 = 4 /\
  m_writeIndex (run 4 KEEP_REAL_SIZE scenario q0) = 4 /\
  m_readIndex (run 4 KEEP_REAL_SIZE scenario q0) = 4 /\
  size 4 KEEP_REAL_SIZE (run 4 KEEP_REAL_SIZE scenario q0) = 0.
Proof. destruct KEEP_REAL_SIZE; vm_compute; repeat split; reflexivity. Qed.

(** ** Counting the calls that succeeded *)

Section Counting.

Context {ELEM_T : Type}.
Variable Q_SIZE : Z.
Variable KEEP_REAL_SIZE : bool.

Local Abbreviation slot := (countToIndex Q_SIZE).
Local Abbreviation push := (@push ELEM_T Q_SIZE KEEP_REAL_SIZE).
Local Abbreviation pop := (@pop ELEM_T Q_SIZE KEEP_REAL_SIZE).
Local Abbreviation call := (@call ELEM_T Q_SIZE KEEP_REAL_SIZE).
Local Abbreviation run := (@run ELEM_T Q_SIZE KEEP_REAL_SIZE).
Local Abbreviation pushes_ok := (@pushes_ok ELEM_T Q_SIZE KEEP_REAL_SIZE).
Local Abbreviation pops_ok := (@pops_ok ELEM_T Q_SIZE KEEP_REAL_SIZE).
Local Abbreviation tracks := (@tracks ELEM_T KEEP_REAL_SIZE).

Lemma run_app (cs1 cs2 : list (Call ELEM_T)) (q : Queue ELEM_T) :
  run (cs1 ++ cs2) q = run cs2 (run cs1 q).
Proof. revert q. induction cs1 as [|c cs1 IH]; intros q; simpl; auto. Qed.

Lemma pushes_ok_app (cs1 cs2 : list (Call ELEM_T)) (q : Queue ELEM_T) :
  pushes_ok (cs1 ++ cs2) q = pushes_ok cs1 q + pushes_ok cs2 (run cs1 q).
Proof.
  revert q. induction cs1 as [|c cs1 IH]; intros q; simpl; [reflexivity|].
  rewrite IH. ring.
Qed.

Lemma pops_ok_app (cs1 cs2 : list (Call ELEM_T)) (q : Queue ELEM_T) :
  pops_ok (cs1 ++ cs2) q = pops_ok cs1 q + pops_ok cs2 (run cs1 q).
Proof.
  revert q. induction cs1 as [|c cs1 IH]; intros q; simpl; [reflexivity|].
  rewrite IH. ring.
Qed.

Lemma pushes_ok_nonneg (cs : list (Call ELEM_T)) (q : Queue ELEM_T) :
  0 <= pushes_ok cs q.
Proof.
  revert q. induction cs as [|c cs IH]; intros q; simpl; [lia|].
  specialize (IH (snd (call c q))).
  destruct c; [destruct (fst _)|]; lia.
Qed.

(** A push that succeeds moves [tracks] from [P] to [P + 1]. *)
Lemma push_tracks (a : ELEM_T) (q : Queue ELEM_T) (P C : Z) :
  tracks P C q ->
  tracks (P + (if fst (push a q) then 1 else 0)) C (snd (push a q)).
Proof.
  intros (Hw & Hr & Hc & Hle & Hlt).
  destruct (Z.eq_dec (slot (u32 (m_writeIndex q + 1))) (slot (m_readIndex q)))
    as [Hfull | Hroom].
  - rewrite (push_full_eq _ _ _ _ Hfull). simpl. rewrite Z.add_0_r.
    repeat split; auto; lia.
  - rewrite (push_ok_eq _ _ _ _ Hroom). simpl.
    assert (Hne : P - C <> 2 ^ 32 - 1).
    { intros Heq. apply Hroom. f_equal. rewrite Hw, Hr, u32_u32_add.
      replace (P + 1) with (C + 1 * 2 ^ 32) by lia.
      unfold u32. apply Z_mod_plus_full. }
    repeat split; try lia.
    + rewrite Hw. apply u32_u32_add.
    + exact Hr.
    + intros Hk. rewrite Hk, (Hc Hk), u32_u32_add. cbn [m_count].
      f_equal. ring.
Qed.

(** A pop that succeeds moves [tracks] from [C] to [C + 1]. *)
Lemma pop_tracks (a : ELEM_T) (q : Queue ELEM_T) (P C : Z) :
  tracks P C q ->
  tracks P (C + (if fst (fst (pop q a)) then 1 else 0)) (snd (fst (pop q a))).
Proof.
  intros (Hw & Hr & Hc & Hle & Hlt).
  destruct (Z.eq_dec (slot (m_readIndex q)) (slot (m_writeIndex q)))
    as [Hempty | Hsome].
  - rewrite (pop_empty_eq _ _ _ _ Hempty). simpl. rewrite Z.add_0_r.
    repeat split; auto; lia.
  - rewrite (pop_ok_eq _ _ _ _ Hsome). simpl.
    assert (Hne : P <> C).
    { intros Heq. apply Hsome. rewrite Hw, Hr, Heq. reflexivity. }
    repeat split; try lia.
    + exact Hw.
    + rewrite Hr. apply u32_u32_add.
    + intros Hk. rewrite Hk, (Hc Hk).
      replace (u32 (P - C) - 1) with (u32 (P - C) + (-1)) by ring.
      rewrite u32_u32_add. cbn [m_count]. f_equal. ring.
Qed.

Lemma call_tracks (c : Call ELEM_T) (q : Queue ELEM_T) (P C : Z) :
  tracks P C q ->
  tracks (P + pushes_ok [c] q) (C + pops_ok [c] q) (snd (call c q)).
Proof.
  intros H. destruct c as [a | a]; simpl; rewrite !Z.add_0_r.
  - now apply push_tracks.
  - now apply pop_tracks.
Qed.

Lemma run_tracks (cs : list (Call ELEM_T)) (q : Queue ELEM_T) (P C : Z) :
  tracks P C q ->
  tracks (P + pushes_ok cs q) (C + pops_ok cs q) (run cs q).
Proof.
  revert q P C. induction cs as [|c cs IH]; intros q P C H.
  - simpl. rewrite !Z.add_0_r. exact H.
  - change (c :: cs) with ([c] ++ cs).
    rewrite run_app, pushes_ok_app, pops_ok_app, !Z.add_assoc.
    apply IH. now apply call_tracks.
Qed.

Lemma fresh_tracks (q : Queue ELEM_T) : fresh Q_SIZE q -> tracks 0 0 q.
Proof.
  intros (cells & _ & ->). unfold tracks. simpl.
  repeat split; try reflexivity; try lia. 
Qed.

Lemma push_fst (a : ELEM_T) (q : Queue ELEM_T) :
  fst (push a q) = negb (slot (u32 (m_writeIndex q + 1)) =? slot (m_readIndex q)).
Proof.
  unfold push.
  destruct (slot (u32 (m_writeIndex q + 1)) =? slot (m_readIndex q)); reflexivity.
Qed.

Lemma pop_fst (a : ELEM_T) (q : Queue ELEM_T) :
  fst (fst (pop q a)) = negb (slot (m_readIndex q) =? slot (m_writeIndex q)).
Proof.
  destruct (Z.eq_dec (slot (m_readIndex q)) (slot (m_writeIndex q))) as [H | H].
  - rewrite (pop_empty_eq _ _ _ _ H), H, Z.eqb_refl. reflexivity.
  - rewrite (pop_ok_eq _ _ _ _ H). apply Z.eqb_neq in H. now rewrite H.
Qed.

(** While the write counter has not wrapped, or for a capacity that divides
    [2^32], the two index tests say what they are meant to say. *)
Lemma full_relation_iff (q : Queue ELEM_T) (P C : Z) :
  0 < Q_SIZE -> tracks P C q -> P - C <= Q_SIZE - 1 ->
  P + 1 < 2 ^ 32 \/ (Q_SIZE | 2 ^ 32) ->
  (full_relation Q_SIZE q <-> P - C = Q_SIZE - 1).
Proof.
  intros HQ (Hw & Hr & _ & Hle & _) Hb Hsafe. unfold full_relation.
  rewrite Hw, Hr, u32_u32_add.
  rewrite !slot_u32 by (unfold is_u32; destruct Hsafe; [left; lia | now right]).
  rewrite same_slot_near by lia. lia.
Qed.

Lemma empty_relation_iff (q : Queue ELEM_T) (P C : Z) :
  0 < Q_SIZE -> tracks P C q -> P - C <= Q_SIZE - 1 ->
  P < 2 ^ 32 \/ (Q_SIZE | 2 ^ 32) ->
  (empty_relation Q_SIZE q <-> P = C).
Proof.
  intros HQ (Hw & Hr & _ & Hle & _) Hb Hsafe. unfold empty_relation.
  rewrite Hw, Hr.
  rewrite !slot_u32 by (unfold is_u32; destruct Hsafe; [left; lia | now right]).
  split; [intros H | intros ->; reflexivity].
  symmetry in H. apply same_slot_near in H; lia.
Qed.

Lemma call_bounded (c : Call ELEM_T) (q : Queue ELEM_T) (P C : Z) :
  0 < Q_SIZE -> tracks P C q -> P - C <= Q_SIZE - 1 ->
  (Q_SIZE | 2 ^ 32) \/ P + pushes_ok [c] q < 2 ^ 32 ->
  (P + pushes_ok [c] q) - (C + pops_ok [c] q) <= Q_SIZE - 1.
Proof.
  intros HQ Ht Hb Hsafe. destruct c as [a | a]; simpl in *.
  - rewrite push_fst in *.
    destruct (slot (u32 (m_writeIndex q + 1)) =? slot (m_readIndex q)) eqn:E;
      simpl in *; [lia|].
    apply Z.eqb_neq in E.
    assert (P - C <> Q_SIZE - 1); [|lia].
    intros Heq. apply E. apply (full_relation_iff q P C); auto.
    destruct Hsafe; [now right | left; lia].
  - destruct (fst (fst (pop q a))); lia.
Qed.

(** The number of live elements stays within [Q_SIZE - 1] for as long as the
    write counter has not wrapped, and for ever when [Q_SIZE] divides [2^32]. *)
Lemma run_bounded (cs : list (Call ELEM_T)) (q : Queue ELEM_T) (P C : Z) :
  0 < Q_SIZE -> tracks P C q -> P - C <= Q_SIZE - 1 ->
  (Q_SIZE | 2 ^ 32) \/ P + pushes_ok cs q < 2 ^ 32 ->
  (P + pushes_ok cs q) - (C + pops_ok cs q) <= Q_SIZE - 1.
Proof.
  intros HQ. revert q P C. induction cs as [|c cs IH]; intros q P C Ht Hb Hsafe.
  - simpl. lia.
  - change (c :: cs) with ([c] ++ cs) in *.
    rewrite pushes_ok_app, pops_ok_app, !Z.add_assoc in *.
    pose proof (pushes_ok_nonneg cs (run [c] q)) as Hnn.
    apply IH.
    + now apply call_tracks.
    + apply call_bounded; auto. destruct Hsafe; [now left | right; lia].
    + destruct Hsafe; [now left | right; lia].
Qed.

(** Every state a fresh queue can reach: the distance of the two indices, in
    wrap-around arithmetic, is the number of live elements, and so is
    [m_count] where it is kept. *)
Lemma counters_count_live (cs : list (Call ELEM_T)) (q0 : Queue ELEM_T) :
  fresh Q_SIZE q0 ->
  let q := run cs q0 in
  let n := live Q_SIZE KEEP_REAL_SIZE cs q0 in
  0 <= n < 2 ^ 32 /\
  u32 (m_writeIndex q - m_readIndex q) = n /\
  (KEEP_REAL_SIZE = true -> m_count q = n).
Proof.
  intros Hf q n. pose proof (run_tracks cs q0 0 0 (fresh_tracks _ Hf)) as Ht.
  simpl in Ht. destruct Ht as (Hw & Hr & Hc & Hle & Hlt).
  fold q in Hw, Hr, Hc. unfold live in n. fold (pushes_ok cs q0) (pops_ok cs q0) in n.
  assert (Hn : is_u32 n) by (unfold is_u32, n; lia).
  split; [exact Hn|]. split.
  - rewrite Hw, Hr, u32_u32_sub. now apply u32_small.
  - intros Hk. rewrite (Hc Hk). now apply u32_small.
Qed.

(** After any calls on a fresh queue at most [Q_SIZE - 1] elements are live,
    for a capacity that divides [2^32], and for any capacity while fewer than
    [2^32] pushes have succeeded. *)
Lemma live_bounded (cs : list (Call ELEM_T)) (q0 : Queue ELEM_T) :
  0 < Q_SIZE -> fresh Q_SIZE q0 ->
  (Q_SIZE | 2 ^ 32) \/ pushes_ok cs q0 < 2 ^ 32 ->
  live Q_SIZE KEEP_REAL_SIZE cs q0 <= Q_SIZE - 1.
Proof.
  intros HQ Hf Hsafe.
  pose proof (run_bounded cs q0 0 0 HQ (fresh_tracks _ Hf)) as H.
  simpl in H. unfold live. apply H; [lia | exact Hsafe].
Qed.

(** [k] pushes in a row all succeed while there is room and no wrap. *)
Lemma pushes_run (k : nat) (a : ELEM_T) (q : Queue ELEM_T) (P C : Z) :
  0 < Q_SIZE -> tracks P C q ->
  P - C + Z.of_nat k <= Q_SIZE - 1 -> P + Z.of_nat k < 2 ^ 32 ->
  pushes_ok (pushes k a) q = Z.of_nat k /\
  pops_ok (pushes k a) q = 0 /\
  tracks (P + Z.of_nat k) C (run (pushes k a) q).
Proof.
  intros HQ. revert q P. induction k as [|k IH]; intros q P Ht Hb Hlt.
  - simpl. rewrite Z.add_0_r. auto.
  - unfold pushes in *. cbn [repeat pushes_ok pops_ok run].
    cbn [call].
    assert (Hroom : ~ full_relation Q_SIZE q).
    { rewrite (full_relation_iff q P C) by (auto; lia). lia. }
    pose proof (push_tracks a q P C Ht) as Ht'.
    rewrite push_fst in *. apply Z.eqb_neq in Hroom. rewrite Hroom in *.
    cbn [negb] in *.
    destruct (IH (snd (push a q)) (P + 1)) as (H1 & H2 & H3); [auto | lia | lia |].
    rewrite H1, H2. split; [lia|]. split; [lia|].
    replace (P + Z.of_nat (S k)) with (P + 1 + Z.of_nat k) by lia. exact H3.
Qed.

(** [k] push-pop rounds on an empty queue, before the write counter wraps. *)
Lemma cycles_run (k : nat) (a : ELEM_T) (q : Queue ELEM_T) (P : Z) :
  1 < Q_SIZE -> tracks P P q -> P + Z.of_nat k < 2 ^ 32 ->
  pushes_ok (cycles k a) q = Z.of_nat k /\
  pops_ok (cycles k a) q = Z.of_nat k /\
  tracks (P + Z.of_nat k) (P + Z.of_nat k) (run (cycles k a) q).
Proof.
  intros HQ. revert q P. induction k as [|k IH]; intros q P Ht Hlt.
  - simpl. rewrite Z.add_0_r. auto.
  - cbn [cycles pushes_ok pops_ok run].
    cbn [call].
    assert (Hroom : ~ full_relation Q_SIZE q).
    { rewrite (full_relation_iff q P P) by (auto; lia). lia. }
    pose proof (push_tracks a q P P Ht) as Ht1.
    rewrite push_fst in *. apply Z.eqb_neq in Hroom. rewrite Hroom in *.
    cbn [negb fst snd] in *.
    set (q1 := snd (push a q)) in *.
    assert (Hsome : ~ empty_relation Q_SIZE q1).
    { rewrite (empty_relation_iff q1 (P + 1) P) by (auto; lia). lia. }
    pose proof (pop_tracks a q1 (P + 1) P Ht1) as Ht2.
    rewrite pop_fst in *. apply Z.eqb_neq in Hsome. rewrite Hsome in *.
    cbn [negb] in *.
    destruct (IH (snd (fst (pop q1 a))) (P + 1)) as (H1 & H2 & H3); [auto | lia |].
    rewrite H1, H2. split; [lia|]. split; [lia|].
    replace (P + Z.of_nat (S k)) with (P + 1 + Z.of_nat k) by lia. exact H3.
Qed.

End Counting.

(** The calls never resize the array. *)
Lemma run_length {ELEM_T : Type} (Q_SIZE : Z) (KEEP_REAL_SIZE : bool)
  (cs : list (Call ELEM_T)) (q : Queue ELEM_T) :
  length (m_theQueue (run Q_SIZE KEEP_REAL_SIZE cs q)) = length (m_theQueue q).
Proof.
  revert q. induction cs as [|c cs IH]; intros q; simpl; [reflexivity|].
  rewrite IH. destruct c as [a | a]; simpl.
  - unfold push.
    destruct (countToIndex Q_SIZE (u32 (m_writeIndex q + 1)) =?
              countToIndex Q_SIZE (m_readIndex q)); simpl; [reflexivity|].
    destruct KEEP_REAL_SIZE; simpl; apply length_insert.
  - destruct (Z.eq_dec (countToIndex Q_SIZE (m_readIndex q))
                       (countToIndex Q_SIZE (m_writeIndex q))) as [H | H].
    + now rewrite (pop_empty_eq _ _ _ _ H).
    + now rewrite (pop_ok_eq _ _ _ _ H).
Qed.

(** The calls keep every counter within [uint32_t] and the array at its
    size. *)
Lemma call_well_formed {ELEM_T : Type} (Q_SIZE : Z) (KEEP_REAL_SIZE : bool)
  (c : Call ELEM_T) (q : Queue ELEM_T) :
  well_formed Q_SIZE q -> well_formed Q_SIZE (snd (call Q_SIZE KEEP_REAL_SIZE c q)).
Proof.
  intros (Hlen & Hw & Hr & Hc).
  pose proof (run_length Q_SIZE KEEP_REAL_SIZE [c] q) as Hlen'.
  cbn [run] in Hlen'. unfold well_formed. rewrite Hlen'.
  split; [exact Hlen|]. destruct c as [a | a]; cbn [call snd].
  - destruct (Z.eq_dec (countToIndex Q_SIZE (u32 (m_writeIndex q + 1)))
                       (countToIndex Q_SIZE (m_readIndex q))) as [H | H].
    + rewrite (push_full_eq _ _ _ _ H). auto.
    + rewrite (push_ok_eq _ _ _ _ H). cbn [snd m_writeIndex m_readIndex m_count].
      split; [apply u32_range|]. split; [exact Hr|].
      destruct KEEP_REAL_SIZE; [apply u32_range | exact Hc].
  - destruct (Z.eq_dec (countToIndex Q_SIZE (m_readIndex q))
                       (countToIndex Q_SIZE (m_writeIndex q))) as [H | H].
    + rewrite (pop_empty_eq _ _ _ _ H). auto.
    + rewrite (pop_ok_eq _ _ _ _ H). cbn [fst snd m_writeIndex m_readIndex m_count].
      split; [exact Hw|]. split; [apply u32_range|].
      destruct KEEP_REAL_SIZE; [apply u32_range | exact Hc].
Qed.

Lemma reachable_well_formed {ELEM_T : Type} (Q_SIZE : Z) (KEEP_REAL_SIZE : bool)
  (q : Queue ELEM_T) :
  reachable Q_SIZE KEEP_REAL_SIZE q -> well_formed Q_SIZE q.
Proof.
  intros (q0 & cs & (cells & Hlen & ->) & ->).
  assert (H0 : well_formed Q_SIZE (ArrayLockFreeQueueBase cells)).
  { unfold well_formed, is_u32. cbn. repeat split; auto; lia. }
  revert H0. generalize (ArrayLockFreeQueueBase cells).
  induction cs as [|c cs IH]; intros q H; cbn [run]; [exact H|].
  apply IH. now apply call_well_formed.
Qed.

(** ** First in, first out, for calls made one after the other *)

Section Fifo.

Context {ELEM_T : Type}.
Variable Q_SIZE : Z.
Variable KEEP_REAL_SIZE : bool.
Hypothesis Q_SIZE_pos : 0 < Q_SIZE.

Local Abbreviation slot := (countToIndex Q_SIZE).
Local Abbreviation push := (@push ELEM_T Q_SIZE KEEP_REAL_SIZE).
Local Abbreviation pop := (@pop ELEM_T Q_SIZE KEEP_REAL_SIZE).
Local Abbreviation call := (@call ELEM_T Q_SIZE KEEP_REAL_SIZE).
Local Abbreviation run := (@run ELEM_T Q_SIZE KEEP_REAL_SIZE).
Local Abbreviation pushes_ok := (@pushes_ok ELEM_T Q_SIZE KEEP_REAL_SIZE).
Local Abbreviation pops_ok := (@pops_ok ELEM_T Q_SIZE KEEP_REAL_SIZE).
Local Abbreviation pushed_by := (@pushed_by ELEM_T Q_SIZE KEEP_REAL_SIZE).
Local Abbreviation popped_by := (@popped_by ELEM_T Q_SIZE KEEP_REAL_SIZE).
Local Abbreviation tracks := (@tracks ELEM_T KEEP_REAL_SIZE).
Local Abbreviation stores := (@stores ELEM_T Q_SIZE).

(** Counters less than a capacity apart are on different slots. *)
Lemma slots_apart (x y : Z) :
  0 <= y -> is_u32 x \/ (Q_SIZE | 2 ^ 32) -> 0 < x - y < Q_SIZE ->
  Z.to_nat (slot (u32 x)) <> Z.to_nat (slot (u32 y)).
Proof.
  intros Hy Hsafe Hd Heq.
  pose proof (countToIndex_range Q_SIZE (u32 x) Q_SIZE_pos) as Hx.
  pose proof (countToIndex_range Q_SIZE (u32 y) Q_SIZE_pos) as Hy'.
  apply Z2Nat.inj in Heq; [|lia|lia].
  rewrite !slot_u32 in Heq
    by (unfold is_u32 in *; destruct Hsafe; [left; lia | now right]).
  apply same_slot_near in Heq; lia.
Qed.

(** The successful push appends its value to what the cells hold. *)
Lemma push_stores (a : ELEM_T) (q : Queue ELEM_T) (P C : Z) (vs : list ELEM_T) :
  tracks P C q -> length (m_theQueue q) = Z.to_nat Q_SIZE ->
  Z.of_nat (length vs) = P - C -> P - C <= Q_SIZE - 1 ->
  P + 1 < 2 ^ 32 \/ (Q_SIZE | 2 ^ 32) ->
  stores q C vs -> ~ full_relation Q_SIZE q ->
  stores (snd (push a q)) C (vs ++ [a]).
Proof.
  intros (Hw & Hr & _ & Hle & _) Hlen Hvs Hb Hsafe Hst Hroom.
  unfold full_relation in Hroom. rewrite (push_ok_eq _ _ _ _ Hroom).
  cbn [snd m_theQueue]. unfold store_slot. rewrite Hw.
  pose proof (countToIndex_range Q_SIZE (u32 P) Q_SIZE_pos) as HP.
  intros j Hj. cbn [m_theQueue]. rewrite length_app in Hj. cbn [length] in Hj.
  destruct (Nat.eq_dec j (length vs)) as [-> | Hne].
  - replace (C + Z.of_nat (length vs)) with P by lia.
    rewrite list_lookup_insert_eq by lia.
    rewrite lookup_app_r by lia. now rewrite Nat.sub_diag.
  - rewrite lookup_app_l by lia.
    rewrite list_lookup_insert_ne; [apply Hst; lia|].
    apply slots_apart; [lia | | lia].
    unfold is_u32. destruct Hsafe; [left; lia | now right].
Qed.

(** The successful pop hands out the oldest value the cells hold. *)
Lemma pop_stores (a v : ELEM_T) (q : Queue ELEM_T) (P C : Z) (vs : list ELEM_T) :
  tracks P C q -> stores q C (v :: vs) -> ~ empty_relation Q_SIZE q ->
  snd (pop q a) = v /\ stores (snd (fst (pop q a))) (C + 1) vs.
Proof.
  intros (Hw & Hr & _) Hst Hsome. unfold empty_relation in Hsome.
  rewrite (pop_ok_eq _ _ _ _ Hsome). cbn [fst snd m_theQueue]. split.
  - unfold load_slot. rewrite Hr.
    pose proof (Hst 0%nat ltac:(cbn [length]; lia)) as H0.
    rewrite Z.add_0_r in H0. now rewrite H0.
  - intros j Hj. cbn [m_theQueue].
    pose proof (Hst (S j) ltac:(cbn [length]; lia)) as HS.
    replace (C + 1 + Z.of_nat j) with (C + Z.of_nat (S j)) by lia. exact HS.
Qed.

Lemma run_fifo (cs : list (Call ELEM_T)) :
  forall (q : Queue ELEM_T) (P C : Z) (vs : list ELEM_T),
  tracks P C q -> length (m_theQueue q) = Z.to_nat Q_SIZE ->
  Z.of_nat (length vs) = P - C -> P - C <= Q_SIZE - 1 ->
  stores q C vs ->
  (Q_SIZE | 2 ^ 32) \/ P + pushes_ok cs q < 2 ^ 32 ->
  exists vs',
    vs ++ pushed_by cs q = popped_by cs q ++ vs' /\
    Z.of_nat (length vs') = (P + pushes_ok cs q) - (C + pops_ok cs q).
Proof.
  induction cs as [|c cs IH]; intros q P C vs Ht Hlen Hvs Hb Hst Hsafe.
  - exists vs. cbn. rewrite app_nil_r. split; [reflexivity | lia].
  - pose proof (pushes_ok_nonneg Q_SIZE KEEP_REAL_SIZE cs (snd (call c q))) as Hnn.
    destruct c as [a | a]; cbn [pushes_ok pops_ok pushed_by popped_by call fst snd] in *.
    + (* push *)
      destruct (Z.eq_dec (slot (u32 (m_writeIndex q + 1))) (slot (m_readIndex q)))
        as [Hfull | Hroom].
      * rewrite (push_full_eq _ _ _ _ Hfull) in *. cbn [fst snd app] in *.
        destruct (IH q P C vs Ht Hlen Hvs Hb Hst) as (vs' & Heq & Hl).
        { destruct Hsafe; [now left | right; lia]. }
        exists vs'. split; [exact Heq | lia].
      * pose proof (push_tracks Q_SIZE KEEP_REAL_SIZE a q P C Ht) as Ht'.
        pose proof (push_stores a q P C vs Ht Hlen Hvs Hb) as Hst'.
        pose proof (full_relation_iff Q_SIZE KEEP_REAL_SIZE q P C Q_SIZE_pos Ht Hb) as Hiff.
        pose proof (run_length Q_SIZE KEEP_REAL_SIZE [CallPush a] q) as Hlen'.
        cbn [run call snd] in Hlen'.
        rewrite (push_fst Q_SIZE KEEP_REAL_SIZE) in *.
        apply Z.eqb_neq in Hroom. rewrite Hroom in *. cbn [negb] in *.
        apply Z.eqb_neq in Hroom.
        assert (Hs1 : P + 1 < 2 ^ 32 \/ (Q_SIZE | 2 ^ 32))
          by (destruct Hsafe; [now right | left; lia]).
        destruct (IH (snd (push a q)) (P + 1) C (vs ++ [a])) as (vs' & Heq & Hl).
        -- exact Ht'.
        -- now rewrite Hlen'.
        -- rewrite length_app. cbn [length]. lia.
        -- unfold full_relation in Hiff. specialize (Hiff Hs1). lia.
        -- now apply Hst'.
        -- destruct Hsafe; [now left | right; lia].
        -- exists vs'. split; [|lia].
           cbn [app]. rewrite <- Heq. now rewrite <- app_assoc.
    + (* pop *)
      destruct (Z.eq_dec (slot (m_readIndex q)) (slot (m_writeIndex q)))
        as [Hempty | Hsome].
      * rewrite (pop_empty_eq _ _ _ _ Hempty) in *. cbn [fst snd app] in *.
        destruct (IH q P C vs Ht Hlen Hvs Hb Hst) as (vs' & Heq & Hl).
        { destruct Hsafe; [now left | right; lia]. }
        exists vs'. split; [exact Heq | lia].
      * pose proof (pop_tracks Q_SIZE KEEP_REAL_SIZE a q P C Ht) as Ht'.
        assert (Hs0 : P < 2 ^ 32 \/ (Q_SIZE | 2 ^ 32))
          by (destruct Hsafe; [now right | left; lia]).
        pose proof (empty_relation_iff Q_SIZE KEEP_REAL_SIZE q P C Q_SIZE_pos Ht Hb Hs0)
          as Hiff.
        unfold empty_relation in Hiff.
        destruct vs as [|v vs]; [cbn [length] in Hvs; lia|].
        destruct (pop_stores a v q P C vs Ht Hst Hsome) as (Hv & Hst').
        rewrite (pop_fst Q_SIZE KEEP_REAL_SIZE) in *.
        apply Z.eqb_neq in Hsome. rewrite Hsome in *. cbn [negb] in *.
        rewrite Hv.
        destruct (IH (snd (fst (pop q a))) P (C + 1) vs) as (vs' & Heq & Hl).
        -- exact Ht'.
        -- pose proof (run_length Q_SIZE KEEP_REAL_SIZE [CallPop a] q) as Hlen'.
           cbn [run call snd] in Hlen'. now rewrite Hlen'.
        -- cbn [length] in Hvs. lia.
        -- lia.
        -- exact Hst'.
        -- exact Hsafe.
        -- exists vs'. split; [|lia].
           cbn [app]. now rewrite Heq.
Qed.

(** Calls made one after the other on a fresh queue: the values popped are,
    in order, the first of the values pushed, and the rest is what the queue
    still holds; this for a capacity that divides [2^32], and for any capacity
    while fewer than [2^32] pushes have succeeded. *)
Lemma sequential_fifo (cs : list (Call ELEM_T)) (q0 : Queue ELEM_T) :
  fresh Q_SIZE q0 ->
  (Q_SIZE | 2 ^ 32) \/ pushes_ok cs q0 < 2 ^ 32 ->
  exists held,
    pushed_by cs q0 = popped_by cs q0 ++ held /\
    Z.of_nat (length held) = live Q_SIZE KEEP_REAL_SIZE cs q0.
Proof.
  intros Hf Hsafe.
  pose proof (fresh_tracks Q_SIZE KEEP_REAL_SIZE q0 Hf) as Ht.
  destruct Hf as (cells & Hlen & ->).
  destruct (run_fifo cs (ArrayLockFreeQueueBase cells) 0 0 []) as (held & Heq & Hl).
  - exact Ht.
  - exact Hlen.
  - reflexivity.
  - lia.
  - intros j Hj. cbn [length] in Hj. lia.
  - exact Hsafe.
  - exists held. split; [exact Heq|]. unfold live. lia.
Qed.

End Fifo.

(** ** Consumers racing among themselves *)

Section Consumers.

Context {ELEM_T : Type}.
Variable Q_SIZE : Z.
Variable KEEP_REAL_SIZE : bool.
Variable q0 : Queue ELEM_T.
Variable vs : list ELEM_T.

Hypothesis Q_SIZE_pos : 0 < Q_SIZE.
Hypothesis cells_length : length (m_theQueue q0) = Z.to_nat Q_SIZE.
Hypothesis read_lo : 0 <= m_readIndex q0.
Hypothesis write_hi : m_writeIndex q0 < 2 ^ 32.
Hypothesis held_length : Z.of_nat (length vs) = m_writeIndex q0 - m_readIndex q0.
Hypothesis held_fits : m_writeIndex q0 - m_readIndex q0 <= Q_SIZE - 1.
Hypothesis held : stores Q_SIZE q0 (m_readIndex q0) vs.

Local Abbreviation slot := (countToIndex Q_SIZE).
Local Abbreviation W := (m_writeIndex q0).
Local Abbreviation R0 := (m_readIndex q0).
Local Abbreviation ok_at := (consumer_ok Q_SIZE (m_theQueue q0) W R0).
Local Abbreviation inv := (consumers_inv Q_SIZE q0 vs).

Lemma popped_values_snoc (h : list (nat * Event ELEM_T)) (i : nat) (e : Event ELEM_T) :
  popped_values (h ++ [(i, e)]) =
  popped_values h ++ match e with EvCAS true x => [x] | _ => [] end.
Proof.
  unfold popped_values. rewrite flat_map_app. cbn [flat_map snd].
  now rewrite app_nil_r.
Qed.

Lemma pushed_values_snoc (h : list (nat * Event ELEM_T)) (i : nat) (e : Event ELEM_T) :
  pushed_values (h ++ [(i, e)]) =
  pushed_values h ++ match e with EvAddWriteIndex x => [x] | _ => [] end.
Proof.
  unfold pushed_values. rewrite flat_map_app. cbn [flat_map snd].
  now rewrite app_nil_r.
Qed.

(** What a consumer knows stays true when the read index moves on. *)
Lemma consumer_ok_mono (R R' : Z) (t : Thread ELEM_T) :
  R <= R' <= W -> ok_at R t -> ok_at R' t.
Proof.
  intros HR. destruct t; cbn [consumer_ok]; intros H; try exact H.
  - split; lia.
  - destruct H as (H1 & H2 & H3). repeat split; try lia. exact H3.
  - intros Hr. specialize (H Hr). lia.
Qed.

(** Between [R0] and [W] the slot of a counter is the cell of its value. *)
Lemma held_at (c : Z) :
  R0 <= c < W ->
  m_theQueue q0 !! Z.to_nat (slot c) = vs !! Z.to_nat (c - R0).
Proof.
  intros Hc. pose proof (held (Z.to_nat (c - R0)) ltac:(lia)) as H.
  rewrite Z2Nat.id in H by lia.
  replace (R0 + (c - R0)) with c in H by ring.
  rewrite u32_small in H by (unfold is_u32; lia). exact H.
Qed.

(** A step that leaves the array and the two indices alone, and is neither a
    successful compare-and-swap nor a push: what remains to show is that the
    thread's new point is consistent. *)
Ltac quiet_step Hbuf Hw HR :=
  unfold consumers_inv;
  cbn [shared threads history set_readIndex set_count
       m_theQueue m_writeIndex m_readIndex];
  split; [exact Hbuf|]; split; [exact Hw|]; split; [exact HR|];
  split;
  [|split; [now rewrite popped_values_snoc, app_nil_r
           |now rewrite pushed_values_snoc, app_nil_r]].

(** One step of any thread keeps the invariant. *)
Lemma sched_step_inv (s : System ELEM_T) (i : nat) :
  inv s -> inv (sched_step Q_SIZE KEEP_REAL_SIZE s i).
Proof.
  intros Hinv. unfold sched_step.
  destruct (threads s !! i) as [t|] eqn:Et; [|exact Hinv].
  destruct Hinv as (Hbuf & Hw & HR & Hts & Hpop & Hpush).
  assert (Ht : ok_at (m_readIndex (shared s)) t)
    by (rewrite Forall_lookup in Hts; exact (Hts i t Et)).
  set (R := m_readIndex (shared s)) in *.
  destruct t as [ | | | | | | a | a cmri | a cri | a cri | a | b a | | | | | | ];
    cbn [consumer_ok] in Ht; try contradiction; cbn [step].
  - (* line 83 *)
    quiet_step Hbuf Hw HR.
    apply Forall_insert; [exact Hts | exact Hw].
  - (* line 84 and the emptiness test *)
    subst cmri. fold R. quiet_step Hbuf Hw HR.
    apply Forall_insert; [exact Hts|].
    destruct (slot R =? slot W) eqn:E; cbn [consumer_ok].
    + intros _. apply Z.eqb_eq in E. symmetry in E.
      apply same_slot_near in E; lia.
    + apply Z.eqb_neq in E. assert (R <> W) by congruence. lia.
  - (* line 96 *)
    destruct Ht as (Hc1 & Hc2). quiet_step Hbuf Hw HR.
    apply Forall_insert; [exact Hts|]. cbn [consumer_ok].
    split; [exact Hc1|]. split; [exact Hc2|].
    rewrite Hbuf. unfold load_slot.
    pose proof (countToIndex_range Q_SIZE cri Q_SIZE_pos) as Hs.
    destruct (lookup_lt_is_Some_2 (m_theQueue q0) (Z.to_nat (slot cri)))
      as [x Hx]; [lia|]. now rewrite Hx.
  - (* line 101, the compare-and-swap *)
    destruct Ht as (Hc1 & Hc2 & Hc3). unfold CAS. fold R.
    destruct (R =? cri) eqn:E.
    + apply Z.eqb_eq in E. subst cri.
      assert (Hr' : u32 (R + 1) = R + 1) by (apply u32_small; unfold is_u32; lia).
      unfold consumers_inv. cbn [shared threads history set_readIndex
        m_theQueue m_writeIndex m_readIndex]. rewrite Hr'.
      split; [exact Hbuf|]. split; [exact Hw|]. split; [lia|]. split.
      * apply Forall_insert.
        -- eapply Forall_impl; [exact Hts|]. intros t'.
           apply consumer_ok_mono. lia.
        -- destruct KEEP_REAL_SIZE; cbn [consumer_ok]; [exact I | discriminate].
      * split; [|now rewrite pushed_values_snoc, app_nil_r].
        rewrite popped_values_snoc, Hpop.
        replace (Z.to_nat (R + 1 - R0)) with (S (Z.to_nat (R - R0))) by lia.
        symmetry. apply take_S_r. rewrite <- held_at by lia. exact Hc3.
    + quiet_step Hbuf Hw HR.
      apply Forall_insert; [exact Hts | exact I].
  - (* line 107 *)
    quiet_step Hbuf Hw HR.
    apply Forall_insert; [exact Hts | discriminate].
  - (* returned *)
    exact (conj Hbuf (conj Hw (conj HR (conj Hts (conj Hpop Hpush))))).
Qed.

Lemma run_schedule_inv (sch : list nat) (s : System ELEM_T) :
  inv s -> inv (run_schedule Q_SIZE KEEP_REAL_SIZE sch s).
Proof.
  unfold run_schedule. revert s.
  induction sch as [|i sch IH]; intros s Hs; cbn [fold_left]; [exact Hs|].
  apply IH. now apply sched_step_inv.
Qed.

(** Any number of consumers, each entering [pop], on a queue that holds [vs]
    and that nobody pushes to, under any schedule: the values handed out, in
    the order of the successful compare-and-swaps, are the first [n] of [vs],
    the read index has advanced by that [n], and once a pop has returned
    [false] all of [vs] has been handed out. *)
Lemma consumers_only_fifo (ts : list (Thread ELEM_T)) (sch : list nat) :
  Forall (fun t => exists a, t = PopL83 a) ts ->
  let s := run_schedule Q_SIZE KEEP_REAL_SIZE sch (mkSystem q0 ts []) in
  exists n : nat,
    popped_values (history s) = take n vs /\
    (n <= length vs)%nat /\
    m_readIndex (shared s) = R0 + Z.of_nat n /\
    m_writeIndex (shared s) = W /\
    pushed_values (history s) = [] /\
    (Exists (fun t => exists a, t = PopRet false a) (threads s) -> n = length vs).
Proof.
  intros Hts s.
  assert (Hinv : inv s).
  { apply run_schedule_inv. unfold consumers_inv. cbn [shared threads history].
    split; [reflexivity|]. split; [reflexivity|]. split; [lia|]. split.
    - eapply Forall_impl; [exact Hts|]. intros t [a ->]. exact I.
    - rewrite Z.sub_diag. split; reflexivity. }
  destruct Hinv as (_ & Hw & HR & Hok & Hpop & Hpush).
  exists (Z.to_nat (m_readIndex (shared s) - R0)).
  split; [exact Hpop|]. split; [lia|]. split; [lia|]. split; [exact Hw|].
  split; [exact Hpush|].
  intros Hex. apply Exists_exists in Hex. destruct Hex as (t & Hin & a & ->).
  rewrite Forall_forall in Hok. specialize (Hok _ Hin eq_refl). lia.
Qed.

End Consumers.

(** Two consumers on a queue of four cells that holds 1, 2, 3, the second
    overtaking the first between its load of the cell and its
    compare-and-swap: what they are handed is a prefix of 1, 2, 3. *)
Lemma consumers_only_fifo_witness :
  exists n : nat,
    popped_values
      (history (run_schedule 4 true [0; 0; 0; 1; 1; 1; 1; 1; 0; 0; 0; 0; 0; 0]%nat
                  (mkSystem (mkQueue [1; 2; 3; 0] 3 0 3) [PopL83 0; PopL83 0] [])))
    = take n [1; 2; 3] /\
    (n <= 3)%nat.
Proof.
  destruct (consumers_only_fifo 4 true (mkQueue [1; 2; 3; 0] 3 0 3) [1; 2; 3])
    with (ts := [PopL83 0; PopL83 0])
         (sch := [0; 0; 0; 1; 1; 1; 1; 1; 0; 0; 0; 0; 0; 0]%nat)
    as (n & Hn & Hle & _);
    cbn [m_theQueue m_writeIndex m_readIndex length]; try lia; try reflexivity.
  - intros [|[|[|j]]] Hj; cbn [length] in Hj; try lia; reflexivity.
  - repeat constructor; eexists; reflexivity.
  - exists n. exact (conj Hn Hle).
Defined.

(** ** The index-normalisation function *)

(** While the counter does not wrap, and at the wrap too when the capacity
    divides [2^32], the slot of the next counter is the cyclic successor of
    the slot of the counter. *)
Lemma countToIndex_successor (n c : Z) :
  is_u32 c -> c + 1 < 2 ^ 32 \/ (n | 2 ^ 32) ->
  countToIndex n (u32 (c + 1)) = cyclic_succ n (countToIndex n c).
Proof.
  intros Hc Hsafe.
  rewrite slot_u32 by (unfold is_u32 in *; destruct Hsafe; [left; lia | now right]).
  unfold cyclic_succ, countToIndex. now rewrite Zplus_mod_idemp_l.
Qed.

Lemma countToIndex_successor_at_wrap (n : Z) :
  n <> 0 ->
  countToIndex n (u32 (4294967295 + 1)) = cyclic_succ n (countToIndex n 4294967295) ->
  (n | 2 ^ 32).
Proof.
  intros Hn. unfold cyclic_succ, countToIndex.
  rewrite Zplus_mod_idemp_l. change (u32 (4294967295 + 1)) with 0.
  change (4294967295 + 1) with (2 ^ 32). rewrite Z.mod_0_l by exact Hn.
  intros H. apply Z.mod_divide; auto.
Qed.


(** ** The two failure returns *)

(** C6. When the slot after [m_writeIndex] is the slot of [m_readIndex],
    [push] returns [false] and the queue (array, both indices, count) is
    exactly as before; step by step, the call does its two loads and returns
    without a store or an increment. *)
Theorem push_on_full_queue {ELEM_T : Type} (Q_SIZE : Z) (KEEP_REAL_SIZE : bool)
  (a_data : ELEM_T) (q : Queue ELEM_T) :
  full_relation Q_SIZE q ->
  push Q_SIZE KEEP_REAL_SIZE a_data q = (false, q) /\
  solo Q_SIZE KEEP_REAL_SIZE 5 q (PushL47 a_data) =
  (q, PushRet false,
   [EvLoadWriteIndex (m_writeIndex q); EvLoadReadIndex (m_readIndex q)]).
Proof.
  intros H. split; [now apply push_full_eq|].
  unfold full_relation in H. simpl. rewrite H, Z.eqb_refl. reflexivity.
Qed.

Lemma push_on_full_queue_witness :
  full_relation 4 (mkQueue [1; 2; 3; 0] 3 0 3) /\
  push 4 true 9 (mkQueue [1; 2; 3; 0] 3 0 3) = (false, mkQueue [1; 2; 3; 0] 3 0 3).
Proof.
  split; [reflexivity|].
  apply (push_on_full_queue 4 true 9 (mkQueue [1; 2; 3; 0] 3 0 3)). reflexivity.
Defined.

(** C7. When the slot of [m_readIndex] is the slot of the write index that the
    pass has read, the pass returns [false] at once: the step after the load
    of [m_readIndex] is the return, with the queue and the caller's [a_data]
    untouched.  For a call on a queue whose two indices are on one slot this
    gives: [pop] returns [false] in its first pass, nothing is changed, and
    the only accesses are the two loads, no [CAS]. *)
Theorem pop_on_empty_queue {ELEM_T : Type} (Q_SIZE : Z) (KEEP_REAL_SIZE : bool)
  (q : Queue ELEM_T) (a_data : ELEM_T) :
  (forall currentMaximumReadIndex,
     countToIndex Q_SIZE (m_readIndex q) = countToIndex Q_SIZE currentMaximumReadIndex ->
     step Q_SIZE KEEP_REAL_SIZE q (PopL84 a_data currentMaximumReadIndex) =
     Some (q, PopRet false a_data, EvLoadReadIndex (m_readIndex q))) /\
  (empty_relation Q_SIZE q ->
   pop Q_SIZE KEEP_REAL_SIZE q a_data = (false, q, a_data) /\
   pop_body Q_SIZE KEEP_REAL_SIZE q a_data = (Some false, q, a_data) /\
   pop_loop Q_SIZE KEEP_REAL_SIZE 1 q a_data = Some (false, q, a_data) /\
   solo Q_SIZE KEEP_REAL_SIZE 5 q (PopL83 a_data) =
   (q, PopRet false a_data,
    [EvLoadWriteIndex (m_writeIndex q); EvLoadReadIndex (m_readIndex q)])).
Proof.
  split.
  - intros cmri H. simpl. rewrite H, Z.eqb_refl. reflexivity.
  - intros H. unfold empty_relation in H.
    split; [now apply pop_empty_eq|].
    assert (Hb : pop_body Q_SIZE KEEP_REAL_SIZE q a_data = (Some false, q, a_data)).
    { unfold pop_body. rewrite H, Z.eqb_refl. reflexivity. }
    split; [exact Hb|]. split.
    + simpl. rewrite Hb. reflexivity.
    + simpl. rewrite H, Z.eqb_refl. reflexivity.
Qed.

Lemma pop_on_empty_queue_witness :
  empty_relation 4 (mkQueue [1; 2; 3; 0] 6 6 0) /\
  pop 4 true (mkQueue [1; 2; 3; 0] 6 6 0) 9 = (false, mkQueue [1; 2; 3; 0] 6 6 0, 9) /\
  step 4 true (mkQueue [1; 2; 3; 0] 6 6 0) (PopL84 9 2) =
  Some (mkQueue [1; 2; 3; 0] 6 6 0, PopRet false 9, EvLoadReadIndex 6).
Proof.
  pose proof (pop_on_empty_queue 4 true (mkQueue [1; 2; 3; 0] 6 6 0) 9) as [Hs Hc].
  split; [reflexivity|]. split.
  - apply Hc. reflexivity.
  - apply (Hs 2). reflexivity.
Defined.

(** C10. With [Q_SIZE = 1] every counter is on slot [0], so on every queue
    the full test and the empty test both hold: every [push] and every [pop]
    returns [false] (also step by step, whatever write index the call has
    read before), and no sequence of calls ever changes the queue or gets a
    call to succeed. *)
Theorem capacity_one_never_holds_an_element {ELEM_T : Type} (KEEP_REAL_SIZE : bool)
  (q : Queue ELEM_T) (a_data : ELEM_T) (cs : list (Call ELEM_T)) :
  (forall c, countToIndex 1 c = 0) /\
  full_relation 1 q /\ empty_relation 1 q /\
  push 1 KEEP_REAL_SIZE a_data q = (false, q) /\
  pop 1 KEEP_REAL_SIZE q a_data = (false, q, a_data) /\
  (forall currentWriteIndex,
     step 1 KEEP_REAL_SIZE q (PushL48 a_data currentWriteIndex) =
     Some (q, PushRet false, EvLoadReadIndex (m_readIndex q))) /\
  (forall currentMaximumReadIndex,
     step 1 KEEP_REAL_SIZE q (PopL84 a_data currentMaximumReadIndex) =
     Some (q, PopRet false a_data, EvLoadReadIndex (m_readIndex q))) /\
  run 1 KEEP_REAL_SIZE cs q = q /\
  pushes_ok 1 KEEP_REAL_SIZE cs q = 0 /\
  pops_ok 1 KEEP_REAL_SIZE cs q = 0.
Proof.
  assert (H0 : forall c, countToIndex 1 c = 0) by (intros c; apply Z.mod_1_r).
  assert (Hf : forall q' : Queue ELEM_T, full_relation 1 q').
  { intros q'. unfold full_relation. now rewrite !H0. }
  assert (He : forall q' : Queue ELEM_T, empty_relation 1 q').
  { intros q'. unfold empty_relation. now rewrite !H0. }
  assert (Hcall : forall c (q' : Queue ELEM_T), call 1 KEEP_REAL_SIZE c q' = (false, q')).
  { intros [a | a] q'; simpl.
    - apply push_full_eq, Hf.
    - now rewrite (pop_empty_eq 1 KEEP_REAL_SIZE q' a (He q')). }
  split; [exact H0|]. split; [apply Hf|]. split; [apply He|].
  split; [apply push_full_eq, Hf|]. split; [apply pop_empty_eq, He|].
  split; [intros cwi; cbn [step]; now rewrite !H0|].
  split; [intros cmri; cbn [step]; now rewrite !H0|].
  split; [|split].
  - induction cs as [|c cs IH]; simpl; [reflexivity|]. now rewrite Hcall.
  - induction cs as [|c cs IH]; simpl; [reflexivity|]. rewrite Hcall. simpl.
    rewrite IH. now destruct c.
  - induction cs as [|c cs IH]; simpl; [reflexivity|]. rewrite Hcall. simpl.
    rewrite IH. now destruct c.
Qed.

(** ** A successful push *)

(** C8. When the queue is not full, [push] stores the value in the slot of
    [m_writeIndex], then adds one to [m_writeIndex] (as a [uint32_t]), then,
    where the count is kept, adds one to [m_count], and returns [true];
    [m_readIndex] and every other slot are as before.  The order of the
    accesses is that of the events of the call run step by step. *)
Theorem push_on_room {ELEM_T : Type} (Q_SIZE : Z) (KEEP_REAL_SIZE : bool)
  (a_data : ELEM_T) (q : Queue ELEM_T) :
  0 < Q_SIZE ->
  length (m_theQueue q) = Z.to_nat Q_SIZE ->
  ~ full_relation Q_SIZE q ->
  let i := Z.to_nat (countToIndex Q_SIZE (m_writeIndex q)) in
  let q' := snd (push Q_SIZE KEEP_REAL_SIZE a_data q) in
  fst (push Q_SIZE KEEP_REAL_SIZE a_data q) = true /\
  m_theQueue q' !! i = Some a_data /\
  (forall j : nat, j <> i -> m_theQueue q' !! j = m_theQueue q !! j) /\
  length (m_theQueue q') = length (m_theQueue q) /\
  m_writeIndex q' = u32 (m_writeIndex q + 1) /\
  (0 <= m_writeIndex q < 2 ^ 32 - 1 -> m_writeIndex q' = m_writeIndex q + 1) /\
  m_readIndex q' = m_readIndex q /\
  m_count q' = (if KEEP_REAL_SIZE then u32 (m_count q + 1) else m_count q) /\
  (KEEP_REAL_SIZE = true -> 0 <= m_count q < 2 ^ 32 - 1 -> m_count q' = m_count q + 1) /\
  solo Q_SIZE KEEP_REAL_SIZE 5 q (PushL47 a_data) =
  (q', PushRet true,
   [EvLoadWriteIndex (m_writeIndex q); EvLoadReadIndex (m_readIndex q);
    EvStoreSlot (countToIndex Q_SIZE (m_writeIndex q)) a_data;
    EvAddWriteIndex a_data]
   ++ (if KEEP_REAL_SIZE then [EvAddCount] else [])).
Proof.
  intros HQ Hlen Hroom i q'. unfold full_relation in Hroom.
  pose proof (countToIndex_range Q_SIZE (m_writeIndex q) HQ) as Hi.
  subst q'. rewrite (push_ok_eq _ _ _ _ Hroom). cbn [fst snd m_theQueue
    m_writeIndex m_readIndex m_count]. unfold store_slot. fold i.
  assert (Hlt : (i < length (m_theQueue q))%nat) by (unfold i; lia).
  split; [reflexivity|].
  split; [now apply list_lookup_insert_eq|].
  split; [intros j Hj; now apply list_lookup_insert_ne|].
  split; [apply length_insert|].
  split; [reflexivity|].
  split; [intros Hw; apply u32_small; unfold is_u32; lia|].
  split; [reflexivity|].
  split; [reflexivity|].
  split; [intros -> Hc; apply u32_small; unfold is_u32; lia|].
  apply Z.eqb_neq in Hroom. simpl. rewrite Hroom.
  destruct KEEP_REAL_SIZE; reflexivity.
Qed.

Lemma push_on_room_witness :
  ~ full_relation 4 (mkQueue [1; 2; 3; 0] 6 5 1) /\
  fst (push 4 true 9 (mkQueue [1; 2; 3; 0] 6 5 1)) = true /\
  m_theQueue (snd (push 4 true 9 (mkQueue [1; 2; 3; 0] 6 5 1))) !! 2%nat = Some 9 /\
  m_writeIndex (snd (push 4 true 9 (mkQueue [1; 2; 3; 0] 6 5 1))) = 7 /\
  m_readIndex (snd (push 4 true 9 (mkQueue [1; 2; 3; 0] 6 5 1))) = 5 /\
  m_count (snd (push 4 true 9 (mkQueue [1; 2; 3; 0] 6 5 1))) = 2.
Proof.
  assert (Hroom : ~ full_relation 4 (mkQueue [1; 2; 3; 0] 6 5 1)) by discriminate.
  split; [exact Hroom|].
  destruct (push_on_room 4 true 9 (mkQueue [1; 2; 3; 0] 6 5 1)
              ltac:(reflexivity) ltac:(reflexivity) Hroom)
    as (Hok & Hslot & _ & _ & Hw & _ & Hr & Hc & _ & _).
  exact (conj Hok (conj Hslot (conj Hw (conj Hr Hc)))).
Defined.

(** ** The derived size *)

(** C4. Without the kept count, [size()] loads [m_writeIndex], then
    [m_readIndex], and returns their difference when the write index is not
    below the read index, and [Q_SIZE + write - read] (in [uint32_t]
    arithmetic, which is the plain integer as long as the read index is ahead
    by at most [Q_SIZE]) otherwise.  In the scenario of the source comment, on
    a queue of 8 cells, the first load sees 3, the second sees 4 after two
    elements went in and out, and [size()] returns 7 with one live element. *)
Theorem size_derived_from_snapshots {ELEM_T : Type} (Q_SIZE : Z)
  (q1 q2 : Queue ELEM_T) :
  is_u32 Q_SIZE -> is_u32 (m_writeIndex q1) -> is_u32 (m_readIndex q2) ->
  let w := m_writeIndex q1 in
  let r := m_readIndex q2 in
  step Q_SIZE false q1 SizeEntry = Some (q1, SizeL76 w, EvLoadWriteIndex w) /\
  (exists n,
     step Q_SIZE false q2 (SizeL76 w) = Some (q2, SizeRet n, EvLoadReadIndex r) /\
     (r <= w -> n = w - r) /\
     (w < r -> n = u32 (Q_SIZE + w - r)) /\
     (w < r -> r - w <= Q_SIZE -> n = Q_SIZE + w - r)) /\
  size Q_SIZE false q1 =
    (if m_readIndex q1 <=? m_writeIndex q1
     then u32 (m_writeIndex q1 - m_readIndex q1)
     else u32 (u32 (Q_SIZE + m_writeIndex q1) - m_readIndex q1)) /\
  (let q0 := ArrayLockFreeQueueBase [0; 0; 0; 0; 0; 0; 0; 0] in
   let qa := run 8 false lapped_before q0 in
   let qb := run 8 false lapped_between qa in
   m_writeIndex qa = 3 /\ m_readIndex qa = 2 /\
   m_writeIndex qb = 5 /\ m_readIndex qb = 4 /\
   live 8 false (lapped_before ++ lapped_between) q0 = 1 /\
   step 8 false qa SizeEntry = Some (qa, SizeL76 3, EvLoadWriteIndex 3) /\
   step 8 false qb (SizeL76 3) = Some (qb, SizeRet 7, EvLoadReadIndex 4) /\
   7 = 8 - 1).
Proof.
  intros HQ Hw Hr w r. unfold is_u32 in *.
  split; [reflexivity|]. split; [|split; [reflexivity|]].
  - exists (size_of Q_SIZE w r). split; [reflexivity|].
    unfold size_of. fold w r in Hw, Hr.
    destruct (r <=? w) eqn:E; [apply Z.leb_le in E | apply Z.leb_gt in E].
    + split; [intros _; apply u32_small; unfold is_u32; lia|]. split; intros; lia.
    + split; [intros; lia|].
      assert (Heq : u32 (u32 (Q_SIZE + w) - r) = u32 (Q_SIZE + w - r)).
      { replace (u32 (Q_SIZE + w) - r) with (u32 (Q_SIZE + w) + (- r)) by ring.
        now rewrite u32_u32_add. }
      split; [intros _; exact Heq|].
      intros _ Hd. rewrite Heq. apply u32_small. unfold is_u32. lia.
  - vm_compute. repeat split; reflexivity.
Qed.

Lemma size_derived_from_snapshots_witness :
  exists n,
    step 8 false (mkQueue [0; 0; 0; 0; 0; 0; 0; 0] 5 4 0) (SizeL76 3) =
    Some (mkQueue [0; 0; 0; 0; 0; 0; 0; 0] 5 4 0, SizeRet n, EvLoadReadIndex 4) /\
    n = 7.
Proof.
  destruct (size_derived_from_snapshots 8
              (mkQueue [0; 0; 0; 0; 0; 0; 0; 0] 3 2 0)
              (mkQueue [0; 0; 0; 0; 0; 0; 0; 0] 5 4 0))
    as (_ & (n & Hstep & _ & _ & Hn) & _);
    [unfold is_u32; simpl; lia ..|].
  exists n. split; [exact Hstep|]. apply Hn; simpl; lia.
Defined.

(** ** The full query *)

Lemma full_iff {ELEM_T : Type} (Q_SIZE : Z) (KEEP_REAL_SIZE : bool)
  (q : Queue ELEM_T) (P C : Z) :
  0 < Q_SIZE < 2 ^ 32 -> tracks KEEP_REAL_SIZE P C q -> P - C <= Q_SIZE - 1 ->
  P + 1 < 2 ^ 32 \/ (Q_SIZE | 2 ^ 32) ->
  (full Q_SIZE KEEP_REAL_SIZE q = true <-> P - C = Q_SIZE - 1).
Proof.
  intros HQ Ht Hb Hsafe. unfold full. destruct KEEP_REAL_SIZE.
  - destruct Ht as (_ & _ & Hc & Hle & Hlt). rewrite (Hc eq_refl).
    rewrite !u32_small by (unfold is_u32; lia). apply Z.eqb_eq.
  - rewrite <- (full_relation_iff Q_SIZE false q P C) by (auto; lia).
    unfold full_relation.
    destruct (countToIndex Q_SIZE (u32 (m_writeIndex q + 1)) =?
              countToIndex Q_SIZE (m_readIndex q)) eqn:E.
    + apply Z.eqb_eq in E. tauto.
    + apply Z.eqb_neq in E. split; [discriminate | tauto].
Qed.

(** What [full()] is in each configuration, and where the two agree.
    Without the kept count, [full()] is the index relation
    [countToIndex(write + 1) == countToIndex(read)], on every queue.  With
    the kept count, [full()] is [m_count == Q_SIZE - 1]; on a queue reached
    from a fresh one by pushes and pops this says the same as the index
    relation when [Q_SIZE] divides [2^32], and for any [Q_SIZE] while fewer
    than [2^32 - 1] pushes have succeeded. *)
Theorem full_in_both_configurations {ELEM_T : Type} (Q_SIZE : Z) (q : Queue ELEM_T) :
  (full Q_SIZE false q = true <-> full_relation Q_SIZE q) /\
  (full Q_SIZE true q = true <-> m_count q = u32 (Q_SIZE - 1)) /\
  (forall q0 cs,
     0 < Q_SIZE < 2 ^ 32 -> fresh Q_SIZE q0 -> q = run Q_SIZE true cs q0 ->
     (Q_SIZE | 2 ^ 32) \/ pushes_ok Q_SIZE true cs q0 + 1 < 2 ^ 32 ->
     (full Q_SIZE true q = true <-> full_relation Q_SIZE q)).
Proof.
  split; [|split].
  - unfold full, full_relation.
    destruct (countToIndex Q_SIZE (u32 (m_writeIndex q + 1)) =?
              countToIndex Q_SIZE (m_readIndex q)) eqn:E.
    + apply Z.eqb_eq in E. tauto.
    + apply Z.eqb_neq in E. split; [discriminate | tauto].
  - unfold full. apply Z.eqb_eq.
  - intros q0 cs HQ Hf -> Hsafe.
    pose proof (run_tracks Q_SIZE true cs q0 0 0 (fresh_tracks Q_SIZE true q0 Hf)) as Ht.
    assert (Hb : 0 + pushes_ok Q_SIZE true cs q0 - (0 + pops_ok Q_SIZE true cs q0)
                 <= Q_SIZE - 1).
    { apply run_bounded; [lia | now apply (fresh_tracks Q_SIZE) | lia |].
      destruct Hsafe; [now left | right; lia]. }
    assert (Hs : 0 + pushes_ok Q_SIZE true cs q0 + 1 < 2 ^ 32 \/ (Q_SIZE | 2 ^ 32))
      by (destruct Hsafe; [now right | left; lia]).
    rewrite (full_iff Q_SIZE true _ _ _ HQ Ht Hb Hs).
    symmetry. apply (full_relation_iff Q_SIZE true _ _ _ (proj1 HQ) Ht Hb Hs).
Qed.

Lemma full_in_both_configurations_witness :
  full 4 true (run 4 true (pushes 3 7) (ArrayLockFreeQueueBase [0; 0; 0; 0])) = true <->
  full_relation 4 (run 4 true (pushes 3 7) (ArrayLockFreeQueueBase [0; 0; 0; 0])).
Proof.
  destruct (full_in_both_configurations 4
              (run 4 true (pushes 3 7) (ArrayLockFreeQueueBase [0; 0; 0; 0])))
    as (_ & _ & H).
  apply (H (ArrayLockFreeQueueBase [0; 0; 0; 0]) (pushes 3 7)).
  - lia.
  - exists [0; 0; 0; 0]. split; reflexivity.
  - reflexivity.
  - right. vm_compute. reflexivity.
Defined.

(** C5.  With the kept count [full()] leaves the index relation once the
    counters have wrapped on a capacity that does not divide [2^32].  On a
    queue of three cells, [2^32 - 1] push-pop rounds leave both indices at
    [4294967295] and the count at zero.  The queue is empty and [full()]
    returns [false]; but the slot of the successor of [m_writeIndex] (slot of
    [0]) is the slot of [m_readIndex] (slot of [4294967295]), both [0]: the
    index relation holds, the [full()] of the other configuration returns
    [true] on these indices, and [push] refuses the value.  The defect is
    that of [countToIndex] at the wrap. *)
Lemma full_with_count_is_not_index_relation :
  let q0 := ArrayLockFreeQueueBase [0; 0; 0] in
  let q := run 3 true (cycles (Z.to_nat 4294967295) 0) q0 in
  reachable 3 true q /\
  m_writeIndex q = 4294967295 /\ m_readIndex q = 4294967295 /\ m_count q = 0 /\
  full 3 true q = false /\ full_relation 3 q /\
  ~ (full 3 true q = true <-> full_relation 3 q) /\
  full 3 false q = true /\ push 3 true 0 q = (false, q).
Proof.
  intros q0 q.
  assert (Hf : fresh 3 q0) by (exists [0; 0; 0]; split; reflexivity).
  destruct (cycles_run 3 true (Z.to_nat 4294967295) 0 q0 0) as (_ & _ & Ht).
  { lia. } { now apply (fresh_tracks 3). } { rewrite Z2Nat.id; [reflexivity | lia]. }
  fold q in Ht. rewrite Z2Nat.id in Ht by lia.
  destruct Ht as (Hw & Hr & Hc & _). specialize (Hc eq_refl).
  change (u32 (0 + 4294967295)) with 4294967295 in Hw, Hr.
  change (u32 (0 + 4294967295 - (0 + 4294967295))) with 0 in Hc.
  split.
  { exists q0, (cycles (Z.to_nat 4294967295) 0). split; [exact Hf | reflexivity]. }
  clearbody q.
  assert (Hfull : full 3 true q = false) by (unfold full; rewrite Hc; reflexivity).
  assert (Hrel : full_relation 3 q) by (unfold full_relation; rewrite Hw, Hr; reflexivity).
  assert (Hother : full 3 false q = true) by (unfold full; rewrite Hw, Hr; reflexivity).
  assert (Hpush : push 3 true 0 q = (false, q)) by (apply push_full_eq; exact Hrel).
  refine (conj Hw (conj Hr (conj Hc (conj Hfull (conj Hrel (conj _ (conj Hother Hpush))))))).
  intros [_ H]. rewrite (H Hrel) in Hfull. discriminate Hfull.
Qed.

(** With the kept count the two also part inside a push: on four cells
    holding two elements, a third push that has done its [AtomicAdd] on
    [m_writeIndex] but not yet the one on [m_count] leaves the index relation
    true and the count at 2, and a [full()] called by another thread at that
    moment returns [false]. *)
Lemma full_with_count_lags_inside_push :
  let q2 := run 4 true [CallPush 1; CallPush 2] (ArrayLockFreeQueueBase [0; 0; 0; 0]) in
  let s := run_schedule 4 true [0; 0; 0; 0; 1]%nat
             (mkSystem q2 [PushL47 3; FullEntry] []) in
  threads s = [PushL66; FullRet false] /\
  m_writeIndex (shared s) = 3 /\ m_readIndex (shared s) = 0 /\
  m_count (shared s) = 2 /\
  full_relation 4 (shared s) /\ full 4 true (shared s) = false.
Proof. vm_compute. repeat split; reflexivity. Qed.

(** ** The capacity boundary *)

(** For every capacity from 2 to [2^32 - 2]: the first [N - 1] pushes on a
    fresh queue succeed, [full()] is [false] before the last of them and
    [true] after it, the next push fails, and after one pop one push succeeds
    and the next fails. *)
Lemma capacity_boundary {ELEM_T : Type} (N : Z) (KEEP_REAL_SIZE : bool)
  (a : ELEM_T) (q0 : Queue ELEM_T) :
  1 < N -> N + 1 < 2 ^ 32 -> fresh N q0 ->
  let q1 := run N KEEP_REAL_SIZE (pushes (Z.to_nat (N - 1)) a) q0 in
  let q2 := snd (fst (pop N KEEP_REAL_SIZE q1 a)) in
  let q3 := snd (push N KEEP_REAL_SIZE a q2) in
  pushes_ok N KEEP_REAL_SIZE (pushes (Z.to_nat (N - 1)) a) q0 = N - 1 /\
  (forall k : nat, Z.of_nat k < N - 1 ->
     full N KEEP_REAL_SIZE (run N KEEP_REAL_SIZE (pushes k a) q0) = false) /\
  full N KEEP_REAL_SIZE q1 = true /\
  push N KEEP_REAL_SIZE a q1 = (false, q1) /\
  fst (fst (pop N KEEP_REAL_SIZE q1 a)) = true /\
  fst (push N KEEP_REAL_SIZE a q2) = true /\
  push N KEEP_REAL_SIZE a q3 = (false, q3).
Proof.
  intros HN Hlt Hf q1 q2 q3.
  pose proof (fresh_tracks N KEEP_REAL_SIZE q0 Hf) as Ht0.
  assert (Hk : forall k : nat, Z.of_nat k <= N - 1 ->
            pushes_ok N KEEP_REAL_SIZE (pushes k a) q0 = Z.of_nat k /\
            tracks KEEP_REAL_SIZE (Z.of_nat k) 0
              (run N KEEP_REAL_SIZE (pushes k a) q0)).
  { intros k Hle.
    destruct (pushes_run N KEEP_REAL_SIZE k a q0 0 0) as (H1 & _ & H2);
      [lia | exact Ht0 | lia | lia |]. now split. }
  destruct (Hk (Z.to_nat (N - 1))) as (Hp & Ht1); [lia|].
  fold q1 in Ht1. rewrite Z2Nat.id in Hp, Ht1 by lia.
  assert (Hfull1 : full_relation N q1).
  { apply (full_relation_iff N KEEP_REAL_SIZE q1 (N - 1) 0); auto; lia. }
  assert (Hsome : ~ empty_relation N q1).
  { rewrite (empty_relation_iff N KEEP_REAL_SIZE q1 (N - 1) 0); auto; lia. }
  pose proof (pop_tracks N KEEP_REAL_SIZE a q1 (N - 1) 0 Ht1) as Ht2.
  pose proof (pop_fst N KEEP_REAL_SIZE a q1) as Hpop.
  apply Z.eqb_neq in Hsome. rewrite Hsome in Hpop. cbn [negb] in Hpop.
  rewrite Hpop in Ht2. fold q2 in Ht2.
  assert (Hroom : ~ full_relation N q2).
  { rewrite (full_relation_iff N KEEP_REAL_SIZE q2 (N - 1) (0 + 1)); auto; lia. }
  pose proof (push_tracks N KEEP_REAL_SIZE a q2 (N - 1) (0 + 1) Ht2) as Ht3.
  pose proof (push_fst N KEEP_REAL_SIZE a q2) as Hpush.
  apply Z.eqb_neq in Hroom. rewrite Hroom in Hpush. cbn [negb] in Hpush.
  rewrite Hpush in Ht3. fold q3 in Ht3.
  assert (Hfull3 : full_relation N q3).
  { apply (full_relation_iff N KEEP_REAL_SIZE q3 (N - 1 + 1) (0 + 1)); auto; lia. }
  split; [exact Hp|]. split.
  { intros k Hklt. destruct (Hk k) as (_ & Htk); [lia|].
    destruct (full N KEEP_REAL_SIZE (run N KEEP_REAL_SIZE (pushes k a) q0)) eqn:E;
      [|reflexivity].
    apply (full_iff N KEEP_REAL_SIZE _ (Z.of_nat k) 0) in E; auto; lia. }
  split.
  { apply (full_iff N KEEP_REAL_SIZE q1 (N - 1) 0); auto; lia. }
  split; [now apply push_full_eq|].
  split; [exact Hpop|].
  split; [exact Hpush|].
  now apply push_full_eq.
Qed.

(** The end of the run at capacity [4294967295], from the queue that
    [4294967294] pushes have filled. *)
Lemma largest_size_tail (KEEP_REAL_SIZE : bool) (q1 : Queue Z) :
  m_writeIndex q1 = 4294967294 -> m_readIndex q1 = 0 ->
  (KEEP_REAL_SIZE = true -> m_count q1 = 4294967294) ->
  let N := 4294967295 in
  let q2 := snd (fst (pop N KEEP_REAL_SIZE q1 0)) in
  let q3 := snd (push N KEEP_REAL_SIZE 8 q2) in
  let q4 := snd (push N KEEP_REAL_SIZE 9 q3) in
  full N KEEP_REAL_SIZE q1 = true /\
  push N KEEP_REAL_SIZE 7 q1 = (false, q1) /\
  fst (fst (pop N KEEP_REAL_SIZE q1 0)) = true /\
  fst (push N KEEP_REAL_SIZE 8 q2) = true /\
  m_writeIndex q3 = 4294967295 /\ m_readIndex q3 = 1 /\
  (KEEP_REAL_SIZE = true -> full N KEEP_REAL_SIZE q3 = true) /\
  fst (push N KEEP_REAL_SIZE 9 q3) = true /\
  m_writeIndex q4 = 0 /\ m_readIndex q4 = 1.
Proof.
  intros Hw1 Hr1 Hc1 N q2 q3 q4.
  assert (Hfull1 : full_relation N q1)
    by (unfold full_relation; rewrite Hw1, Hr1; reflexivity).
  assert (Hf1 : full N KEEP_REAL_SIZE q1 = true).
  { unfold full. destruct KEEP_REAL_SIZE.
    - rewrite (Hc1 eq_refl). reflexivity.
    - rewrite Hw1, Hr1. reflexivity. }
  assert (Hsome1 : countToIndex N (m_readIndex q1) <> countToIndex N (m_writeIndex q1))
    by (rewrite Hw1, Hr1; discriminate).
  assert (Hpop : fst (fst (pop N KEEP_REAL_SIZE q1 0)) = true)
    by (rewrite (pop_ok_eq _ _ _ _ Hsome1); reflexivity).
  assert (Hw2 : m_writeIndex q2 = 4294967294)
    by (unfold q2; rewrite (pop_ok_eq _ _ _ _ Hsome1); exact Hw1).
  assert (Hr2 : m_readIndex q2 = 1)
    by (unfold q2; rewrite (pop_ok_eq _ _ _ _ Hsome1);
        cbn [fst snd m_readIndex]; rewrite Hr1; reflexivity).
  assert (Hc2 : KEEP_REAL_SIZE = true -> m_count q2 = 4294967293)
    by (intros Hk; unfold q2; rewrite (pop_ok_eq _ _ _ _ Hsome1);
        cbn [fst snd m_count]; rewrite Hk, (Hc1 Hk); reflexivity).
  clearbody q2.
  assert (Hroom2 : countToIndex N (u32 (m_writeIndex q2 + 1))
                   <> countToIndex N (m_readIndex q2))
    by (rewrite Hw2, Hr2; discriminate).
  assert (Hpush2 : fst (push N KEEP_REAL_SIZE 8 q2) = true)
    by (rewrite (push_ok_eq _ _ _ _ Hroom2); reflexivity).
  assert (Hw3 : m_writeIndex q3 = 4294967295)
    by (unfold q3; rewrite (push_ok_eq _ _ _ _ Hroom2);
        cbn [fst snd m_writeIndex]; rewrite Hw2; reflexivity).
  assert (Hr3 : m_readIndex q3 = 1)
    by (unfold q3; rewrite (push_ok_eq _ _ _ _ Hroom2); exact Hr2).
  assert (Hf3 : KEEP_REAL_SIZE = true -> full N KEEP_REAL_SIZE q3 = true)
    by (intros Hk; unfold full, q3; rewrite (push_ok_eq _ _ _ _ Hroom2);
        cbn [fst snd m_count]; rewrite Hk, (Hc2 Hk); reflexivity).
  clearbody q3.
  assert (Hroom3 : countToIndex N (u32 (m_writeIndex q3 + 1))
                   <> countToIndex N (m_readIndex q3))
    by (rewrite Hw3, Hr3; discriminate).
  assert (Hpush3 : fst (push N KEEP_REAL_SIZE 9 q3) = true)
    by (rewrite (push_ok_eq _ _ _ _ Hroom3); reflexivity).
  assert (Hw4 : m_writeIndex q4 = 0)
    by (unfold q4; rewrite (push_ok_eq _ _ _ _ Hroom3);
        cbn [fst snd m_writeIndex]; rewrite Hw3; reflexivity).
  assert (Hr4 : m_readIndex q4 = 1)
    by (unfold q4; rewrite (push_ok_eq _ _ _ _ Hroom3); exact Hr3).
  clearbody q4.
  refine (conj Hf1 (conj _ (conj Hpop (conj Hpush2
            (conj Hw3 (conj Hr3 (conj Hf3 (conj Hpush3 (conj Hw4 Hr4))))))))).
  now apply push_full_eq.
Qed.

(** C1 at the largest capacity a [uint32_t] can name, [Q_SIZE = 4294967295],
    whatever the array holds at the start.  The first [N - 1] pushes succeed,
    [full()] then returns [true] and the next push fails; one pop succeeds;
    after it not one but two pushes succeed.  The second is let through
    because [m_writeIndex + 1] wraps to [0], which is on slot [0] while
    [m_readIndex = 1] is on slot [1] (with the kept count, [full()] returns
    [true] just before it); the queue then counts [N] live elements in
    [N - 1] usable slots. *)
Theorem capacity_boundary_fails_at_largest_size (cells : list Z) (KEEP_REAL_SIZE : bool) :
  let N := 4294967295 in
  let q0 := ArrayLockFreeQueueBase cells in
  let first := pushes (Z.to_nat (N - 1)) 7 in
  let q1 := run N KEEP_REAL_SIZE first q0 in
  let q2 := snd (fst (pop N KEEP_REAL_SIZE q1 0)) in
  let q3 := snd (push N KEEP_REAL_SIZE 8 q2) in
  let q4 := snd (push N KEEP_REAL_SIZE 9 q3) in
  pushes_ok N KEEP_REAL_SIZE first q0 = N - 1 /\
  full N KEEP_REAL_SIZE q1 = true /\
  push N KEEP_REAL_SIZE 7 q1 = (false, q1) /\
  fst (fst (pop N KEEP_REAL_SIZE q1 0)) = true /\
  fst (push N KEEP_REAL_SIZE 8 q2) = true /\
  m_writeIndex q3 = 4294967295 /\ m_readIndex q3 = 1 /\
  (KEEP_REAL_SIZE = true -> full N KEEP_REAL_SIZE q3 = true) /\
  fst (push N KEEP_REAL_SIZE 9 q3) = true /\
  m_writeIndex q4 = 0 /\ m_readIndex q4 = 1 /\
  live N KEEP_REAL_SIZE (first ++ [CallPop 0; CallPush 8; CallPush 9]) q0 = N.
Proof.
  cbv zeta.
  assert (Ht0 : tracks KEEP_REAL_SIZE 0 0 (ArrayLockFreeQueueBase cells)).
  { unfold tracks, ArrayLockFreeQueueBase. cbn [m_writeIndex m_readIndex m_count].
    repeat split; try reflexivity; lia. }
  destruct (pushes_run 4294967295 KEEP_REAL_SIZE (Z.to_nat (4294967295 - 1)) 7
              (ArrayLockFreeQueueBase cells) 0 0)
    as (Hp & Hc & Ht1); [reflexivity | exact Ht0 | | |].
  { rewrite Z2Nat.id by lia. lia. }
  { rewrite Z2Nat.id by lia. lia. }
  rewrite Z2Nat.id in Hp, Ht1 by lia.
  unfold live. rewrite pushes_ok_app, pops_ok_app, Hp, Hc.
  destruct Ht1 as (Hw1 & Hr1 & Hc1 & _).
  change (u32 (0 + (4294967295 - 1))) with 4294967294 in Hw1.
  change (u32 0) with 0 in Hr1.
  change (u32 (0 + (4294967295 - 1) - 0)) with 4294967294 in Hc1.
  clear Hp Hc Ht0. revert Hw1 Hr1 Hc1.
  generalize (run 4294967295 KEEP_REAL_SIZE (pushes (Z.to_nat (4294967295 - 1)) 7)
                (ArrayLockFreeQueueBase cells)).
  intros q1 Hw1 Hr1 Hc1.
  destruct (largest_size_tail KEEP_REAL_SIZE q1 Hw1 Hr1 Hc1)
    as (Hf1 & Hfail & Hpop & Hpush2 & Hw3 & Hr3 & Hf3 & Hpush3 & Hw4 & Hr4).
  cbn [pushes_ok pops_ok call fst snd].
  rewrite Hpop, Hpush2, Hpush3.
  refine (conj eq_refl (conj Hf1 (conj Hfail (conj eq_refl (conj eq_refl
            (conj Hw3 (conj Hr3 (conj Hf3 (conj eq_refl (conj Hw4 (conj Hr4 _))))))))))).
  reflexivity.
Qed.

(** ** The counters against the number of live elements *)

(** Three pushes on a queue of three cells whose two indices stand at
    [4294967294]. *)
Lemma wrap_tail_of_three (KEEP_REAL_SIZE : bool) (q1 : Queue Z) :
  length (m_theQueue q1) = 3%nat ->
  m_writeIndex q1 = 4294967294 -> m_readIndex q1 = 4294967294 ->
  (KEEP_REAL_SIZE = true -> m_count q1 = 0) ->
  let cs := [CallPush 1; CallPush 2; CallPush 3] in
  let q := run 3 KEEP_REAL_SIZE cs q1 in
  pushes_ok 3 KEEP_REAL_SIZE cs q1 = 3 /\
  pops_ok 3 KEEP_REAL_SIZE cs q1 = 0 /\
  m_writeIndex q = 1 /\ m_readIndex q = 4294967294 /\
  (KEEP_REAL_SIZE = true -> m_count q = 3) /\
  m_theQueue q !! 0%nat = Some 3 /\ m_theQueue q !! 2%nat = Some 1.
Proof.
  destruct q1 as [buf w r c]. cbn [m_theQueue m_writeIndex m_readIndex m_count].
  intros Hlen -> -> Hc.
  destruct buf as [|b0 [|b1 [|b2 [|b3 buf]]]]; try discriminate Hlen.
  destruct KEEP_REAL_SIZE.
  - rewrite (Hc eq_refl). vm_compute. repeat split; reflexivity.
  - vm_compute. repeat split; intros; try reflexivity; discriminate.
Qed.

(** C9 on a queue of three cells.  [2^32 - 2] push-pop rounds bring both
    indices to [4294967294]; the three pushes that follow all succeed, the
    third because [m_writeIndex + 1] is then [1], on slot [1], while
    [m_readIndex = 4294967294] is on slot [2].  The indices and the count
    still tell the number of live elements, which is [3], above
    [Q_SIZE - 1 = 2]; the third push has written over the second (slot [0]),
    which no pop had taken. *)
Theorem live_exceeds_capacity_after_wrap (KEEP_REAL_SIZE : bool) :
  let q0 := ArrayLockFreeQueueBase [0; 0; 0] in
  let cs := cycles (Z.to_nat 4294967294) 0 ++ [CallPush 1; CallPush 2; CallPush 3] in
  let q := run 3 KEEP_REAL_SIZE cs q0 in
  reachable 3 KEEP_REAL_SIZE q /\
  live 3 KEEP_REAL_SIZE cs q0 = 3 /\
  u32 (m_writeIndex q - m_readIndex q) = 3 /\
  (KEEP_REAL_SIZE = true -> m_count q = 3) /\
  ~ (live 3 KEEP_REAL_SIZE cs q0 <= 3 - 1) /\
  m_theQueue q !! 0%nat = Some 3 /\ m_theQueue q !! 2%nat = Some 1.
Proof.
  cbv zeta.
  assert (Hf : fresh 3 (ArrayLockFreeQueueBase [0; 0; 0]))
    by (exists [0; 0; 0]; split; reflexivity).
  split.
  { eexists. eexists. split; [exact Hf | reflexivity]. }
  destruct (cycles_run 3 KEEP_REAL_SIZE (Z.to_nat 4294967294) 0
              (ArrayLockFreeQueueBase [0; 0; 0]) 0) as (Hp & Hc & Ht).
  { lia. } { now apply (fresh_tracks 3). } { rewrite Z2Nat.id; [reflexivity | lia]. }
  rewrite Z2Nat.id in Hp, Hc, Ht by lia.
  pose proof (run_length 3 KEEP_REAL_SIZE (cycles (Z.to_nat 4294967294) 0)
                (ArrayLockFreeQueueBase [0; 0; 0])) as Hlen.
  change (length (m_theQueue (ArrayLockFreeQueueBase [0; 0; 0]))) with 3%nat in Hlen.
  unfold live. rewrite run_app, pushes_ok_app, pops_ok_app, Hp, Hc.
  destruct Ht as (Hw & Hr & Hcnt & _).
  change (u32 (0 + 4294967294)) with 4294967294 in Hw, Hr.
  change (u32 (0 + 4294967294 - (0 + 4294967294))) with 0 in Hcnt.
  clear Hp Hc Hf. revert Hlen Hw Hr Hcnt.
  generalize (run 3 KEEP_REAL_SIZE (cycles (Z.to_nat 4294967294) 0)
                (ArrayLockFreeQueueBase [0; 0; 0])).
  intros q1 Hlen Hw Hr Hcnt.
  destruct (wrap_tail_of_three KEEP_REAL_SIZE q1 Hlen Hw Hr Hcnt)
    as (Hp3 & Hc3 & Hw3 & Hr3 & Hcnt3 & Hs0 & Hs2).
  rewrite Hp3, Hc3, Hw3, Hr3.
  refine (conj _ (conj _ (conj Hcnt3 (conj _ (conj Hs0 Hs2))))).
  - reflexivity.
  - reflexivity.
  - intros H. revert H. apply Z.lt_nge. reflexivity.
Qed.

(** ** Consumers racing with the producer *)

(** C2 under the schedule [race_schedule] on a queue of four cells holding
    [91; 92; 93; 94] at the start.  The producer pushes [10] and nothing else.
    Consumer 1 loads [m_writeIndex = 0] (line 83) and is overtaken: the push
    completes and consumer 2 pops [10], leaving [m_readIndex = 1].  Consumer 1
    then loads [m_readIndex = 1] (line 84), finds slot [1] different from the
    slot of its stale write index [0], copies cell [1] out and its [CAS] from
    [1] to [2] succeeds.  Both pops return [true]: the values handed out, in
    the order of the successful compare-and-swaps, are [10; 92], not a prefix
    of the pushed sequence [10], and [m_readIndex] has overtaken
    [m_writeIndex]. *)
Theorem racing_pop_hands_out_unpushed_cell (KEEP_REAL_SIZE : bool) :
  let s := run_schedule 4 KEEP_REAL_SIZE race_schedule race_start in
  threads s = [PushRet true; PopRet true 92; PopRet true 10] /\
  pushed_values (history s) = [10] /\
  popped_values (history s) = [10; 92] /\
  ~ (exists rest, pushed_values (history s) = popped_values (history s) ++ rest) /\
  m_writeIndex (shared s) = 1 /\ m_readIndex (shared s) = 2 /\
  m_theQueue (shared s) = [10; 92; 93; 94] /\
  history (sched_step 4 KEEP_REAL_SIZE race_start 1) = [(1%nat, EvLoadWriteIndex 0)].
Proof.
  destruct KEEP_REAL_SIZE; vm_compute;
    (repeat split; try reflexivity; intros [rest H]; discriminate H).
Qed.

(** * Further properties of the calls *)

(** ** The constructor *)

(** A queue as the constructor leaves it is empty: [pop] fails and changes
    nothing, [size()] is 0 in both configurations, and the queue is full from
    the start, so that the first [push] fails, exactly when [Q_SIZE] is 1. *)
Theorem constructed_queue_is_empty {ELEM_T : Type} (Q_SIZE : Z) (KEEP_REAL_SIZE : bool)
  (cells : list ELEM_T) (a_data : ELEM_T) :
  0 < Q_SIZE < 2 ^ 32 ->
  let q := ArrayLockFreeQueueBase cells in
  pop Q_SIZE KEEP_REAL_SIZE q a_data = (false, q, a_data) /\
  size Q_SIZE KEEP_REAL_SIZE q = 0 /\
  (full Q_SIZE KEEP_REAL_SIZE q = true <-> Q_SIZE = 1) /\
  (fst (push Q_SIZE KEEP_REAL_SIZE a_data q) = false <-> Q_SIZE = 1).
Proof.
  intros HQ q.
  assert (Hslot : countToIndex Q_SIZE (u32 (0 + 1)) = countToIndex Q_SIZE 0 <-> Q_SIZE = 1).
  { change (u32 (0 + 1)) with 1. unfold countToIndex. rewrite Z.mod_0_l by lia.
    split.
    - intros H. destruct (Z.eq_dec Q_SIZE 1) as [|Hne]; [assumption|].
      rewrite Z.mod_small in H by lia. discriminate H.
    - intros ->. reflexivity. }
  split; [now apply pop_empty_eq|].
  split; [unfold size; destruct KEEP_REAL_SIZE; reflexivity|].
  split.
  - unfold full. destruct KEEP_REAL_SIZE.
    + cbn [q ArrayLockFreeQueueBase m_count].
      rewrite u32_small by (unfold is_u32; lia).
      split; [intros H; apply Z.eqb_eq in H; lia | intros ->; reflexivity].
    + cbn [q ArrayLockFreeQueueBase m_writeIndex m_readIndex].
      rewrite <- Hslot.
      destruct (countToIndex Q_SIZE (u32 (0 + 1)) =? countToIndex Q_SIZE 0) eqn:E.
      * apply Z.eqb_eq in E. tauto.
      * apply Z.eqb_neq in E. split; [discriminate | tauto].
  - rewrite push_fst. cbn [q ArrayLockFreeQueueBase m_writeIndex m_readIndex].
    rewrite <- Hslot.
    destruct (countToIndex Q_SIZE (u32 (0 + 1)) =? countToIndex Q_SIZE 0) eqn:E.
    + apply Z.eqb_eq in E. cbn [negb]. tauto.
    + apply Z.eqb_neq in E. cbn [negb]. split; [discriminate | tauto].
Qed.

Lemma constructed_queue_is_empty_witness :
  pop 4 true (ArrayLockFreeQueueBase [7; 7; 7; 7]) 9
  = (false, ArrayLockFreeQueueBase [7; 7; 7; 7], 9) /\
  size 4 true (ArrayLockFreeQueueBase [7; 7; 7; 7]) = 0.
Proof.
  destruct (constructed_queue_is_empty 4 true [7; 7; 7; 7] 9 ltac:(lia))
    as (Hpop & Hsize & _).
  exact (conj Hpop Hsize).
Defined.

(** ** What decides the outcome of a call *)

(** On a queue reached from a fresh one by calls made one after the other,
    for a capacity that divides [2^32] or while fewer than [2^32 - 1] pushes
    have succeeded: [push] succeeds exactly when fewer than [Q_SIZE - 1]
    elements are live, [full()] (in either configuration) is [true] exactly
    when [push] would fail, and [pop] succeeds exactly when an element is
    live. *)
Theorem outcome_by_live_count {ELEM_T : Type} (Q_SIZE : Z) (KEEP_REAL_SIZE : bool)
  (cs : list (Call ELEM_T)) (q0 : Queue ELEM_T) (a_data : ELEM_T) :
  0 < Q_SIZE < 2 ^ 32 -> fresh Q_SIZE q0 ->
  (Q_SIZE | 2 ^ 32) \/ pushes_ok Q_SIZE KEEP_REAL_SIZE cs q0 + 1 < 2 ^ 32 ->
  let q := run Q_SIZE KEEP_REAL_SIZE cs q0 in
  let n := live Q_SIZE KEEP_REAL_SIZE cs q0 in
  0 <= n <= Q_SIZE - 1 /\
  (fst (push Q_SIZE KEEP_REAL_SIZE a_data q) = true <-> n < Q_SIZE - 1) /\
  (full Q_SIZE KEEP_REAL_SIZE q = true <->
   fst (push Q_SIZE KEEP_REAL_SIZE a_data q) = false) /\
  (fst (fst (pop Q_SIZE KEEP_REAL_SIZE q a_data)) = true <-> 0 < n).
Proof.
  intros HQ Hf Hsafe q n.
  pose proof (run_tracks Q_SIZE KEEP_REAL_SIZE cs q0 0 0
                (fresh_tracks Q_SIZE KEEP_REAL_SIZE q0 Hf)) as Ht.
  assert (Hb : 0 + pushes_ok Q_SIZE KEEP_REAL_SIZE cs q0
               - (0 + pops_ok Q_SIZE KEEP_REAL_SIZE cs q0) <= Q_SIZE - 1).
  { apply run_bounded; [lia | now apply (fresh_tracks Q_SIZE) | lia |].
    destruct Hsafe; [now left | right; lia]. }
  fold q in Ht.
  assert (Hn : n = 0 + pushes_ok Q_SIZE KEEP_REAL_SIZE cs q0
                   - (0 + pops_ok Q_SIZE KEEP_REAL_SIZE cs q0))
    by (unfold n, live; lia).
  rewrite <- Hn in Hb.
  assert (Hs1 : 0 + pushes_ok Q_SIZE KEEP_REAL_SIZE cs q0 + 1 < 2 ^ 32 \/ (Q_SIZE | 2 ^ 32))
    by (destruct Hsafe; [now right | left; lia]).
  assert (Hs0 : 0 + pushes_ok Q_SIZE KEEP_REAL_SIZE cs q0 < 2 ^ 32 \/ (Q_SIZE | 2 ^ 32))
    by (destruct Hsafe; [now right | left; lia]).
  pose proof (full_relation_iff Q_SIZE KEEP_REAL_SIZE q _ _ (proj1 HQ) Ht
                ltac:(lia) Hs1) as Hfr.
  pose proof (empty_relation_iff Q_SIZE KEEP_REAL_SIZE q _ _ (proj1 HQ) Ht
                ltac:(lia) Hs0) as Her.
  pose proof (full_iff Q_SIZE KEEP_REAL_SIZE q _ _ HQ Ht ltac:(lia) Hs1) as Hfull.
  unfold full_relation in Hfr. unfold empty_relation in Her.
  destruct Ht as (_ & _ & _ & Hle & _).
  split; [lia|].
  rewrite push_fst, pop_fst.
  destruct (countToIndex Q_SIZE (u32 (m_writeIndex q + 1)) =?
            countToIndex Q_SIZE (m_readIndex q)) eqn:E1;
    [apply Z.eqb_eq in E1 | apply Z.eqb_neq in E1];
  destruct (countToIndex Q_SIZE (m_readIndex q) =?
            countToIndex Q_SIZE (m_writeIndex q)) eqn:E2;
    [apply Z.eqb_eq in E2 | apply Z.eqb_neq in E2 |
     apply Z.eqb_eq in E2 | apply Z.eqb_neq in E2];
    cbn [negb]; (split; [|split]); split; intros H;
    try reflexivity; try discriminate H; try lia; try tauto.
Qed.

Lemma outcome_by_live_count_witness :
  full 4 true (run 4 true (pushes 3 7) (ArrayLockFreeQueueBase [0; 0; 0; 0])) = true <->
  fst (push 4 true 9 (run 4 true (pushes 3 7) (ArrayLockFreeQueueBase [0; 0; 0; 0]))) = false.
Proof.
  destruct (outcome_by_live_count 4 true (pushes 3 7) (ArrayLockFreeQueueBase [0; 0; 0; 0]) 9)
    as (_ & _ & H & _).
  - lia.
  - exists [0; 0; 0; 0]. split; reflexivity.
  - right. vm_compute. reflexivity.
  - exact H.
Defined.

(** ** What [size()] reports between calls *)

Lemma divisor_at_most_half (n : Z) : 0 < n < 2 ^ 32 -> (n | 2 ^ 32) -> 2 * n <= 2 ^ 32.
Proof.
  intros Hn [k Hk]. assert (2 <= k) by nia. nia.
Qed.

(** On a queue reached from a fresh one by calls made one after the other:
    with the kept count [size()] is the number of live elements.  Without it,
    [size()] is that number as long as [m_writeIndex] is not below
    [m_readIndex]; once the write index has wrapped past [2^32] and the read
    index has not, [size()] reports [Q_SIZE] more than are live (for a
    capacity that divides [2^32]), that is, at least the whole capacity. *)
Theorem size_between_calls {ELEM_T : Type} (Q_SIZE : Z)
  (cs : list (Call ELEM_T)) (q0 : Queue ELEM_T) :
  0 < Q_SIZE < 2 ^ 32 -> fresh Q_SIZE q0 ->
  size Q_SIZE true (run Q_SIZE true cs q0) = live Q_SIZE true cs q0 /\
  (let q := run Q_SIZE false cs q0 in
   let n := live Q_SIZE false cs q0 in
   (m_readIndex q <= m_writeIndex q -> size Q_SIZE false q = n) /\
   ((Q_SIZE | 2 ^ 32) -> m_writeIndex q < m_readIndex q ->
    size Q_SIZE false q = n + Q_SIZE /\ Q_SIZE <= size Q_SIZE false q)).
Proof.
  intros HQ Hf. split.
  - pose proof (run_tracks Q_SIZE true cs q0 0 0 (fresh_tracks Q_SIZE true q0 Hf))
      as (_ & _ & Hc & Hle & Hlt).
    unfold size, live. rewrite (Hc eq_refl). apply u32_small. unfold is_u32. lia.
  - intros q n.
    pose proof (run_tracks Q_SIZE false cs q0 0 0 (fresh_tracks Q_SIZE false q0 Hf))
      as Ht.
    pose proof Ht as (Hw & Hr & _ & Hle & Hlt). fold q in Hw, Hr.
    assert (Hn : n = 0 + pushes_ok Q_SIZE false cs q0 - (0 + pops_ok Q_SIZE false cs q0))
      by (unfold n, live; lia).
    rewrite <- Hn in Hlt.
    assert (Hd : u32 (m_writeIndex q - m_readIndex q) = n).
    { rewrite Hw, Hr, u32_u32_sub, <- Hn. apply u32_small. unfold is_u32. lia. }
    unfold size, size_of. split.
    + intros Hrw. apply Z.leb_le in Hrw. rewrite Hrw. exact Hd.
    + intros Hdiv Hwr. apply Z.leb_gt in Hwr. rewrite Hwr.
      assert (Hb : n <= Q_SIZE - 1).
      { rewrite Hn. apply run_bounded; [lia | exact (fresh_tracks Q_SIZE false q0 Hf)
                                        | lia | now left]. }
      pose proof (divisor_at_most_half Q_SIZE HQ Hdiv) as Hhalf.
      assert (Hs : u32 (u32 (Q_SIZE + m_writeIndex q) - m_readIndex q) = n + Q_SIZE).
      { replace (u32 (Q_SIZE + m_writeIndex q) - m_readIndex q)
          with (u32 (Q_SIZE + m_writeIndex q) + (- m_readIndex q)) by ring.
        rewrite u32_u32_add.
        replace (Q_SIZE + m_writeIndex q + - m_readIndex q)
          with (m_writeIndex q - m_readIndex q + Q_SIZE) by ring.
        rewrite <- u32_u32_add, Hd. apply u32_small. unfold is_u32. lia. }
      rewrite Hs. lia.
Qed.

(** Four cells, [2^32 - 1] push-pop rounds and one more push: the write index
    has wrapped to 0 and the read index stands at [4294967295]. *)
Lemma write_index_wrapped_first :
  let q := run 4 false (cycles (Z.to_nat 4294967295) 0 ++ [CallPush 1])
             (ArrayLockFreeQueueBase [0; 0; 0; 0]) in
  m_writeIndex q = 0 /\ m_readIndex q = 4294967295.
Proof.
  cbv zeta. rewrite run_app.
  destruct (cycles_run 4 false (Z.to_nat 4294967295) 0
              (ArrayLockFreeQueueBase [0; 0; 0; 0]) 0) as (_ & _ & Ht).
  { lia. }
  { apply (fresh_tracks 4). exists [0; 0; 0; 0]. split; reflexivity. }
  { rewrite Z2Nat.id; [reflexivity | lia]. }
  rewrite Z2Nat.id in Ht by lia. destruct Ht as (Hw & Hr & _).
  change (u32 (0 + 4294967295)) with 4294967295 in Hw, Hr.
  revert Hw Hr.
  generalize (run 4 false (cycles (Z.to_nat 4294967295) 0)
                (ArrayLockFreeQueueBase [0; 0; 0; 0])).
  intros q1 Hw Hr. cbn [run call].
  assert (Hroom : countToIndex 4 (u32 (m_writeIndex q1 + 1))
                  <> countToIndex 4 (m_readIndex q1))
    by (rewrite Hw, Hr; discriminate).
  rewrite (push_ok_eq _ _ _ _ Hroom). cbn [snd m_writeIndex m_readIndex].
  rewrite Hw, Hr. split; reflexivity.
Qed.

Lemma size_between_calls_witness :
  size 4 true (run 4 true scenario (ArrayLockFreeQueueBase [0; 0; 0; 0]))
  = live 4 true scenario (ArrayLockFreeQueueBase [0; 0; 0; 0]) /\
  size 4 false (run 4 false (cycles (Z.to_nat 4294967295) 0 ++ [CallPush 1])
                  (ArrayLockFreeQueueBase [0; 0; 0; 0]))
  = live 4 false (cycles (Z.to_nat 4294967295) 0 ++ [CallPush 1])
      (ArrayLockFreeQueueBase [0; 0; 0; 0]) + 4.
Proof.
  assert (Hf : fresh 4 (ArrayLockFreeQueueBase [0; 0; 0; 0]))
    by (exists [0; 0; 0; 0]; split; reflexivity).
  split.
  - exact (proj1 (size_between_calls 4 scenario _ ltac:(lia) Hf)).
  - destruct (size_between_calls 4 (cycles (Z.to_nat 4294967295) 0 ++ [CallPush 1])
                (ArrayLockFreeQueueBase [0; 0; 0; 0]) ltac:(lia) Hf) as (_ & _ & H).
    destruct write_index_wrapped_first as (Hw & Hr).
    apply H.
    + exists (2 ^ 30). reflexivity.
    + rewrite Hw, Hr. reflexivity.
Defined.

(** ** Witnesses of the lemmas on sequences of calls *)

Lemma sequential_fifo_witness :
  exists held,
    pushed_by 4 true scenario (ArrayLockFreeQueueBase [0; 0; 0; 0])
    = popped_by 4 true scenario (ArrayLockFreeQueueBase [0; 0; 0; 0]) ++ held /\
    Z.of_nat (length held) = live 4 true scenario (ArrayLockFreeQueueBase [0; 0; 0; 0]).
Proof.
  apply (sequential_fifo 4 true).
  - lia.
  - exists [0; 0; 0; 0]. split; reflexivity.
  - left. exists (2 ^ 30). reflexivity.
Defined.

Lemma counters_count_live_witness :
  u32 (m_writeIndex (run 4 true scenario (ArrayLockFreeQueueBase [0; 0; 0; 0]))
       - m_readIndex (run 4 true scenario (ArrayLockFreeQueueBase [0; 0; 0; 0])))
  = live 4 true scenario (ArrayLockFreeQueueBase [0; 0; 0; 0]).
Proof.
  destruct (counters_count_live 4 true scenario (ArrayLockFreeQueueBase [0; 0; 0; 0]))
    as (_ & H & _).
  - exists [0; 0; 0; 0]. split; reflexivity.
  - exact H.
Defined.

Lemma live_bounded_witness :
  live 3 false (pushes 5 7) (ArrayLockFreeQueueBase [0; 0; 0]) <= 3 - 1.
Proof.
  apply live_bounded.
  - lia.
  - exists [0; 0; 0]. split; reflexivity.
  - right. vm_compute. reflexivity.
Defined.

Lemma capacity_boundary_witness :
  full 4 false (run 4 false (pushes (Z.to_nat (4 - 1)) 7) (ArrayLockFreeQueueBase [0; 0; 0; 0]))
  = true.
Proof.
  destruct (capacity_boundary 4 false 7 (ArrayLockFreeQueueBase [0; 0; 0; 0]))
    as (_ & _ & H & _).
  - lia.
  - lia.
  - exists [0; 0; 0; 0]. split; reflexivity.
  - exact H.
Defined.

(** The wrap of the counter on a capacity that divides [2^32]. *)
Lemma countToIndex_successor_witness :
  countToIndex 4 (u32 (4294967295 + 1)) = cyclic_succ 4 (countToIndex 4 4294967295).
Proof.
  apply countToIndex_successor.
  - unfold is_u32. lia.
  - right. exists (2 ^ 30). reflexivity.
Defined.

(** * Further properties of the steps *)

(** ** A call left alone returns *)


(** ** The counters under any interleaving *)

Lemma count_change_snoc {ELEM_T : Type} (h : list (nat * Event ELEM_T)) (i : nat)
  (e : Event ELEM_T) :
  count_change (h ++ [(i, e)]) =
  count_change h + match e with EvAddCount => 1 | EvSubCount => -1 | _ => 0 end.
Proof.
  unfold count_change. rewrite fold_left_app. cbn [fold_left snd].
  destruct e; lia.
Qed.

(** One step of any thread moves each counter by what its event says. *)
Lemma sched_step_accounts {ELEM_T : Type} (Q_SIZE : Z) (KEEP_REAL_SIZE : bool)
  (w0 r0 c0 : Z) (s : System ELEM_T) (i : nat) :
  let counted (s : System ELEM_T) :=
    m_writeIndex (shared s) = u32 (w0 + Z.of_nat (length (pushed_values (history s)))) /\
    m_readIndex (shared s) = u32 (r0 + Z.of_nat (length (popped_values (history s)))) /\
    m_count (shared s) = u32 (c0 + count_change (history s)) in
  counted s -> counted (sched_step Q_SIZE KEEP_REAL_SIZE s i).
Proof.
  intros counted (Hw & Hr & Hc). unfold sched_step, counted.
  destruct (threads s !! i) as [t|]; [|now repeat split].
  destruct t; cbn [step]; try (now repeat split);
    try match goal with
        | |- context [CAS ?c ?o ?v] =>
            unfold CAS; destruct (c =? o) eqn:E; [apply Z.eqb_eq in E; rewrite <- E|]
        end;
    try match goal with
        | |- context [if KEEP_REAL_SIZE then Some _ else Some _] =>
            destruct KEEP_REAL_SIZE
        end;
    cbn [shared history set_theQueue set_writeIndex set_readIndex set_count
         m_theQueue m_writeIndex m_readIndex m_count];
    rewrite pushed_values_snoc, popped_values_snoc, count_change_snoc;
    rewrite ?length_app; cbn [length]; rewrite ?Nat.add_0_r, ?Z.add_0_r, ?app_nil_r;
    unfold AtomicAdd, AtomicSub;
    rewrite ?Hw, ?Hr, ?Hc;
    (split; [|split]);
    try reflexivity; try assumption;
    try (rewrite u32_u32_add; f_equal; lia).
  change (u32 (c0 + count_change (history s)) - 1)
    with (u32 (c0 + count_change (history s)) + -1).
  rewrite u32_u32_add. f_equal. lia.
Qed.

(** Whatever the threads and whatever the schedule (the race of two consumers
    with the producer included): [m_writeIndex] has advanced, modulo [2^32],
    by the number of [AtomicAdd]s that published a value, [m_readIndex] by
    the number of successful compare-and-swaps, and [m_count] by its
    increments less its decrements. *)
Theorem counters_follow_events {ELEM_T : Type} (Q_SIZE : Z) (KEEP_REAL_SIZE : bool)
  (q : Queue ELEM_T) (ts : list (Thread ELEM_T)) (sch : list nat) :
  is_u32 (m_writeIndex q) -> is_u32 (m_readIndex q) -> is_u32 (m_count q) ->
  let s := run_schedule Q_SIZE KEEP_REAL_SIZE sch (mkSystem q ts []) in
  m_writeIndex (shared s)
  = u32 (m_writeIndex q + Z.of_nat (length (pushed_values (history s)))) /\
  m_readIndex (shared s)
  = u32 (m_readIndex q + Z.of_nat (length (popped_values (history s)))) /\
  m_count (shared s) = u32 (m_count q + count_change (history s)).
Proof.
  intros Hw Hr Hc s. subst s. unfold run_schedule.
  assert (H0 : let s0 := mkSystem q ts [] in
    m_writeIndex (shared s0)
    = u32 (m_writeIndex q + Z.of_nat (length (pushed_values (history s0)))) /\
    m_readIndex (shared s0)
    = u32 (m_readIndex q + Z.of_nat (length (popped_values (history s0)))) /\
    m_count (shared s0) = u32 (m_count q + count_change (history s0))).
  { cbn. rewrite !Z.add_0_r, !u32_small by assumption. now repeat split. }
  revert H0. cbv zeta. generalize (mkSystem q ts []).
  induction sch as [|i sch IH]; intros s Hs; cbn [fold_left]; [exact Hs|].
  apply IH. now apply (sched_step_accounts Q_SIZE KEEP_REAL_SIZE).
Qed.

Lemma counters_follow_events_witness :
  m_readIndex (shared (run_schedule 4 true race_schedule race_start))
  = u32 (0 + Z.of_nat (length (popped_values
                                 (history (run_schedule 4 true race_schedule race_start))))).
Proof.
  destruct (counters_follow_events 4 true (ArrayLockFreeQueueBase [91; 92; 93; 94])
              [PushL47 10; PopL83 0; PopL83 0] race_schedule)
    as (_ & H & _); [unfold is_u32; cbn; lia ..|].
  exact H.
Defined.

(** ** Who writes what *)

(** A step keeps the thread in its call; outside [push] it leaves the array
    and [m_writeIndex] alone and publishes nothing, outside [pop] it leaves
    [m_readIndex] alone and hands out nothing, and in a query it leaves the
    whole queue alone. *)
Lemma step_frame {ELEM_T : Type} (Q_SIZE : Z) (KEEP_REAL_SIZE : bool)
  (q q' : Queue ELEM_T) (t t' : Thread ELEM_T) (e : Event ELEM_T) :
  step Q_SIZE KEEP_REAL_SIZE q t = Some (q', t', e) ->
  in_push t' = in_push t /\ in_pop t' = in_pop t /\
  (in_push t = false ->
   m_theQueue q' = m_theQueue q /\ m_writeIndex q' = m_writeIndex q /\
   match e with EvAddWriteIndex _ => False | _ => True end) /\
  (in_pop t = false ->
   m_readIndex q' = m_readIndex q /\
   match e with EvCAS true _ => False | _ => True end) /\
  (in_push t = false -> in_pop t = false -> q' = q).
Proof.
  destruct t; cbn [step in_push in_pop];
    try discriminate;
    try match goal with
        | |- context [CAS ?c ?o ?v] => unfold CAS; destruct (c =? o)
        end;
    try match goal with
        | |- context [if KEEP_REAL_SIZE then Some _ else Some _] =>
            destruct KEEP_REAL_SIZE
        end;
    intros H; injection H as <- <- <-;
    repeat match goal with
           | |- context [if ?b then _ else _] => destruct b
           end;
    cbn [in_push in_pop set_theQueue set_writeIndex set_readIndex set_count
         m_theQueue m_writeIndex m_readIndex];
    repeat split; intros; try discriminate; reflexivity.
Qed.

(** Under any schedule: if no thread is in [push], the array and
    [m_writeIndex] stay as they were; if no thread is in [pop], [m_readIndex]
    stays as it was; and [size()] and [full()] calls alone change nothing. *)
Theorem only_push_writes_only_pop_claims {ELEM_T : Type} (Q_SIZE : Z)
  (KEEP_REAL_SIZE : bool) (q : Queue ELEM_T) (ts : list (Thread ELEM_T))
  (sch : list nat) :
  let s := run_schedule Q_SIZE KEEP_REAL_SIZE sch (mkSystem q ts []) in
  (Forall (fun t => in_push t = false) ts ->
   m_theQueue (shared s) = m_theQueue q /\ m_writeIndex (shared s) = m_writeIndex q /\
   pushed_values (history s) = []) /\
  (Forall (fun t => in_pop t = false) ts ->
   m_readIndex (shared s) = m_readIndex q /\ popped_values (history s) = []) /\
  (Forall (fun t => in_push t = false /\ in_pop t = false) ts -> shared s = q).
Proof.
  intros s. subst s. unfold run_schedule.
  assert (Hstep : forall (s : System ELEM_T) (i : nat),
    let s' := sched_step Q_SIZE KEEP_REAL_SIZE s i in
    (Forall (fun t => in_push t = false) (threads s) ->
     Forall (fun t => in_push t = false) (threads s') /\
     m_theQueue (shared s') = m_theQueue (shared s) /\
     m_writeIndex (shared s') = m_writeIndex (shared s) /\
     pushed_values (history s') = pushed_values (history s)) /\
    (Forall (fun t => in_pop t = false) (threads s) ->
     Forall (fun t => in_pop t = false) (threads s') /\
     m_readIndex (shared s') = m_readIndex (shared s) /\
     popped_values (history s') = popped_values (history s)) /\
    (Forall (fun t => in_push t = false /\ in_pop t = false) (threads s) ->
     Forall (fun t => in_push t = false /\ in_pop t = false) (threads s') /\
     shared s' = shared s)).
  { intros s i. unfold sched_step.
    destruct (threads s !! i) as [t|] eqn:Et; [|cbv zeta; tauto].
    destruct (step Q_SIZE KEEP_REAL_SIZE (shared s) t) as [[[q' t'] e]|] eqn:Es;
      [|cbv zeta; tauto].
    destruct (step_frame _ _ _ _ _ _ _ Es) as (Hk1 & Hk2 & Hf1 & Hf2 & Hf3).
    cbv zeta. cbn [shared threads history].
    rewrite pushed_values_snoc, popped_values_snoc.
    split; [|split]; intros Hall.
    - assert (Ht : in_push t = false) by (rewrite Forall_lookup in Hall; exact (Hall i t Et)).
      destruct (Hf1 Ht) as (H1 & H2 & H3).
      split; [apply Forall_insert; [exact Hall | congruence]|].
      split; [exact H1|]. split; [exact H2|].
      destruct e; try contradiction; apply app_nil_r.
    - assert (Ht : in_pop t = false) by (rewrite Forall_lookup in Hall; exact (Hall i t Et)).
      destruct (Hf2 Ht) as (H1 & H2).
      split; [apply Forall_insert; [exact Hall | congruence]|].
      split; [exact H1|].
      destruct e as [| | | | | | | |[|] x]; try contradiction; apply app_nil_r.
    - assert (Ht : in_push t = false /\ in_pop t = false)
        by (rewrite Forall_lookup in Hall; exact (Hall i t Et)).
      destruct Ht as (Ht1 & Ht2).
      split; [apply Forall_insert; [exact Hall | split; congruence]|].
      now apply Hf3. }
  assert (Hrun : forall (s : System ELEM_T),
    let s' := fold_left (sched_step Q_SIZE KEEP_REAL_SIZE) sch s in
    (Forall (fun t => in_push t = false) (threads s) ->
     m_theQueue (shared s') = m_theQueue (shared s) /\
     m_writeIndex (shared s') = m_writeIndex (shared s) /\
     pushed_values (history s') = pushed_values (history s)) /\
    (Forall (fun t => in_pop t = false) (threads s) ->
     m_readIndex (shared s') = m_readIndex (shared s) /\
     popped_values (history s') = popped_values (history s)) /\
    (Forall (fun t => in_push t = false /\ in_pop t = false) (threads s) ->
     shared s' = shared s)).
  { induction sch as [|i sch IH]; intros s; cbn [fold_left]; cbv zeta.
    - tauto.
    - destruct (Hstep s i) as (H1 & H2 & H3). cbv zeta in H1, H2, H3.
      destruct (IH (sched_step Q_SIZE KEEP_REAL_SIZE s i)) as (I1 & I2 & I3).
      cbv zeta in I1, I2, I3.
      split; [|split]; intros Hall.
      + destruct (H1 Hall) as (Ha & Hb & Hc & Hd).
        destruct (I1 Ha) as (Ia & Ib & Ic). repeat split; congruence.
      + destruct (H2 Hall) as (Ha & Hb & Hc).
        destruct (I2 Ha) as (Ia & Ib). split; congruence.
      + destruct (H3 Hall) as (Ha & Hb). rewrite (I3 Ha). exact Hb. }
  exact (Hrun (mkSystem q ts [])).
Qed.

Lemma only_push_writes_only_pop_claims_witness :
  shared (run_schedule 4 true [0; 1; 0; 1; 0]%nat
            (mkSystem (mkQueue [1; 2; 3; 0] 3 0 3) [SizeEntry; FullEntry] []))
  = mkQueue [1; 2; 3; 0] 3 0 3.
Proof.
  destruct (only_push_writes_only_pop_claims 4 true (mkQueue [1; 2; 3; 0] 3 0 3)
              [SizeEntry; FullEntry] [0; 1; 0; 1; 0]%nat) as (_ & _ & H).
  apply H. repeat constructor.
Defined.

(** ** What a failed [pop] leaves in [a_data] *)

Lemma u32_succ_differs (r : Z) : is_u32 r -> (u32 (r + 1) =? r) = false.
Proof.
  unfold is_u32, u32. intros Hr. apply Z.eqb_neq.
  destruct (Z.eq_dec r (2 ^ 32 - 1)) as [-> | Hne]; [discriminate|].
  rewrite Z.mod_small; lia.
Qed.

(** The queue holds one element [x] (by its indices) and two consumers call
    [pop].  The first copies [x] into its [a_data] (line 96); the second then
    takes [x] with a whole [pop]; the first loses its compare-and-swap, goes
    round, finds the queue empty and returns [false], with [x], not the
    value the caller had passed, in [a_data]. *)
Theorem failed_pop_may_overwrite_a_data {ELEM_T : Type} (Q_SIZE : Z)
  (KEEP_REAL_SIZE : bool) (q : Queue ELEM_T) (a0 b0 x : ELEM_T) :
  is_u32 (m_readIndex q) ->
  countToIndex Q_SIZE (m_readIndex q) <> countToIndex Q_SIZE (m_writeIndex q) ->
  countToIndex Q_SIZE (u32 (m_readIndex q + 1)) = countToIndex Q_SIZE (m_writeIndex q) ->
  m_theQueue q !! Z.to_nat (countToIndex Q_SIZE (m_readIndex q)) = Some x ->
  let s := run_schedule Q_SIZE KEEP_REAL_SIZE [0; 0; 0; 1; 1; 1; 1; 1; 0; 0; 0]%nat
             (mkSystem q [PopL83 a0; PopL83 b0] []) in
  threads s = [PopRet false x; PopRet true x] /\
  popped_values (history s) = [x] /\
  m_readIndex (shared s) = u32 (m_readIndex q + 1).
Proof.
  destruct q as [buf w r c]. cbn [m_theQueue m_writeIndex m_readIndex].
  intros Hr Hne Heq Hx. apply Z.eqb_neq in Hne.
  pose proof (u32_succ_differs r Hr) as Hcas.
  assert (Hload : forall a, load_slot (countToIndex Q_SIZE r) buf a = x)
    by (intros a; unfold load_slot; now rewrite Hx).
  unfold run_schedule.
  destruct KEEP_REAL_SIZE;
    repeat first
      [ rewrite Hne | rewrite Hload | rewrite Z.eqb_refl | rewrite Hcas | rewrite Heq
      | progress unfold CAS
      | progress cbn -[countToIndex u32 Z.eqb Z.add load_slot] ];
    repeat split; reflexivity.
Qed.

Lemma failed_pop_may_overwrite_a_data_witness :
  threads (run_schedule 4 true [0; 0; 0; 1; 1; 1; 1; 1; 0; 0; 0]%nat
             (mkSystem (mkQueue [7; 0; 0; 0] 1 0 1) [PopL83 100; PopL83 200] []))
  = [PopRet false 7; PopRet true 7].
Proof.
  destruct (failed_pop_may_overwrite_a_data 4 true (mkQueue [7; 0; 0; 0] 1 0 1) 100 200 7)
    as (H & _).
  - unfold is_u32. cbn. lia.
  - discriminate.
  - reflexivity.
  - reflexivity.
  - exact H.
Defined.

(** ** The kept count between the two halves of a push *)

(** With the count kept, on an empty queue with room: the producer publishes
    a value and is overtaken before its [AtomicAdd] on [m_count] (line 66); a
    consumer pops the value and decrements the count from 0; a [size()]
    called then returns [4294967295].  When the producer goes on the count is
    back at 0. *)
Theorem kept_count_dips_below_zero {ELEM_T : Type} (Q_SIZE : Z)
  (q : Queue ELEM_T) (a b0 : ELEM_T) :
  0 < Q_SIZE -> length (m_theQueue q) = Z.to_nat Q_SIZE ->
  empty_relation Q_SIZE q -> ~ full_relation Q_SIZE q -> m_count q = 0 ->
  let s := run_schedule Q_SIZE true [0; 0; 0; 0; 1; 1; 1; 1; 1; 2; 0]%nat
             (mkSystem q [PushL47 a; PopL83 b0; SizeEntry] []) in
  threads s = [PushRet true; PopRet true a; SizeRet 4294967295] /\
  pushed_values (history s) = [a] /\ popped_values (history s) = [a] /\
  m_count (shared s) = 0.
Proof.
  destruct q as [buf w r c]. unfold empty_relation, full_relation.
  cbn [m_theQueue m_writeIndex m_readIndex m_count].
  intros HQ Hlen Hempty Hroom ->.
  assert (Hroom' : (countToIndex Q_SIZE (u32 (w + 1)) =? countToIndex Q_SIZE r) = false)
    by now apply Z.eqb_neq.
  assert (Hsome : (countToIndex Q_SIZE r =? countToIndex Q_SIZE (u32 (w + 1))) = false)
    by (apply Z.eqb_neq; congruence).
  assert (Hload : load_slot (countToIndex Q_SIZE r)
                    (store_slot (countToIndex Q_SIZE w) a buf) b0 = a).
  { unfold load_slot, store_slot. rewrite Hempty.
    pose proof (countToIndex_range Q_SIZE w HQ) as Hi.
    rewrite list_lookup_insert_eq by lia. reflexivity. }
  unfold run_schedule.
  repeat first
    [ rewrite Hroom' | rewrite Hsome | rewrite Hload | rewrite Z.eqb_refl
    | progress unfold CAS, AtomicAdd, AtomicSub
    | progress cbn -[countToIndex u32 Z.eqb Z.add Z.sub load_slot store_slot] ].
  change (u32 (0 - 1)) with 4294967295.
  change (u32 (4294967295 + 1)) with 0.
  repeat split; reflexivity.
Qed.

Lemma kept_count_dips_below_zero_witness :
  threads (run_schedule 4 true [0; 0; 0; 0; 1; 1; 1; 1; 1; 2; 0]%nat
             (mkSystem (ArrayLockFreeQueueBase [0; 0; 0; 0])
                [PushL47 7; PopL83 0; SizeEntry] []))
  = [PushRet true; PopRet true 7; SizeRet 4294967295].
Proof.
  destruct (kept_count_dips_below_zero 4 (ArrayLockFreeQueueBase [0; 0; 0; 0]) 7 0)
    as (H & _).
  - lia.
  - reflexivity.
  - reflexivity.
  - discriminate.
  - reflexivity.
  - exact H.
Defined.

(** ** One producer and one consumer under any interleaving *)

Section Spsc.

Context {ELEM_T : Type}.
Variable Q_SIZE : Z.
Variable KEEP_REAL_SIZE : bool.
Hypothesis Q_SIZE_pos : 0 < Q_SIZE.

Local Abbreviation slot := (countToIndex Q_SIZE).
Local Abbreviation shared_ok := (@spsc_shared ELEM_T Q_SIZE).

(** An event that neither publishes nor claims leaves the account as it is. *)
Lemma spsc_shared_quiet (P C : Z) (held : list ELEM_T) (q : Queue ELEM_T)
  (h : list (nat * Event ELEM_T)) (i : nat) (e : Event ELEM_T) :
  shared_ok P C held q h ->
  match e with EvAddWriteIndex _ | EvCAS true _ => False | _ => True end ->
  shared_ok P C held q (h ++ [(i, e)]).
Proof.
  intros (H1 & H2 & H3 & H4 & H5 & H6 & H7 & H8) He.
  refine (conj H1 (conj H2 (conj H3 (conj H4 (conj H5 (conj H6 (conj H7 _))))))).
  rewrite pushed_values_snoc, popped_values_snoc.
  destruct e as [| | | | | | | |[|] x]; try contradiction; now rewrite !app_nil_r.
Qed.

Lemma spsc_shared_count (P C : Z) (held : list ELEM_T) (q : Queue ELEM_T)
  (h : list (nat * Event ELEM_T)) (c : Z) :
  shared_ok P C held q h -> shared_ok P C held (set_count c q) h.
Proof. intros H. exact H. Qed.

(** The store of [push]: it goes to a cell that holds none of [held]. *)
Lemma spsc_shared_store (P C : Z) (held : list ELEM_T) (q : Queue ELEM_T)
  (h : list (nat * Event ELEM_T)) (a : ELEM_T) :
  shared_ok P C held q h -> P - C <= Q_SIZE - 2 ->
  is_u32 P \/ (Q_SIZE | 2 ^ 32) ->
  let q' := set_theQueue (store_slot (slot (u32 P)) a (m_theQueue q)) q in
  shared_ok P C held q' h /\
  m_theQueue q' !! Z.to_nat (slot (u32 P)) = Some a.
Proof.
  intros (H1 & H2 & H3 & H4 & H5 & H6 & H7 & H8) Hroom Hsafe q'.
  pose proof (countToIndex_range Q_SIZE (u32 P) Q_SIZE_pos) as Hi.
  split.
  - refine (conj _ (conj H2 (conj H3 (conj H4 (conj H5 (conj H6 (conj _ H8))))))).
    + cbn [q' set_theQueue m_theQueue]. unfold store_slot.
      rewrite length_insert. exact H1.
    + intros j Hj. cbn [q' set_theQueue m_theQueue]. unfold store_slot.
      rewrite list_lookup_insert_ne; [apply H7; exact Hj|].
      apply (slots_apart Q_SIZE Q_SIZE_pos); [lia | exact Hsafe | lia].
  - cbn [q' set_theQueue m_theQueue]. unfold store_slot.
    apply list_lookup_insert_eq. lia.
Qed.

(** The [AtomicAdd] of [push]: the stored value joins [held]. *)
Lemma spsc_shared_publish (P C : Z) (held : list ELEM_T) (q : Queue ELEM_T)
  (h : list (nat * Event ELEM_T)) (i : nat) (a : ELEM_T) :
  shared_ok P C held q h -> P - C <= Q_SIZE - 2 ->
  m_theQueue q !! Z.to_nat (slot (u32 P)) = Some a ->
  shared_ok (P + 1) C (held ++ [a])
    (set_writeIndex (AtomicAdd (m_writeIndex q) 1) q) (h ++ [(i, EvAddWriteIndex a)]).
Proof.
  intros (H1 & H2 & H3 & H4 & H5 & H6 & H7 & H8) Hroom Hcell.
  unfold spsc_shared, AtomicAdd.
  cbn [set_writeIndex m_theQueue m_writeIndex m_readIndex].
  split; [exact H1|]. split; [rewrite H2; apply u32_u32_add|].
  split; [exact H3|]. split; [lia|]. split; [lia|].
  split; [rewrite length_app; cbn [length]; lia|]. split.
  - intros j Hj. cbn [m_theQueue]. rewrite length_app in Hj. cbn [length] in Hj.
    destruct (Nat.eq_dec j (length held)) as [-> | Hne].
    + replace (C + Z.of_nat (length held)) with P by lia.
      rewrite lookup_app_r by lia. rewrite Nat.sub_diag. exact Hcell.
    + rewrite lookup_app_l by lia. apply H7. lia.
  - rewrite pushed_values_snoc, popped_values_snoc, H8, app_nil_r.
    now rewrite app_assoc.
Qed.

(** The successful compare-and-swap of [pop]: the oldest of [held] leaves. *)
Lemma spsc_shared_claim (P C : Z) (a : ELEM_T) (held : list ELEM_T)
  (q : Queue ELEM_T) (h : list (nat * Event ELEM_T)) (i : nat) :
  shared_ok P C (a :: held) q h ->
  shared_ok P (C + 1) held
    (set_readIndex (u32 (u32 C + 1)) q) (h ++ [(i, EvCAS true a)]).
Proof.
  intros (H1 & H2 & H3 & H4 & H5 & H6 & H7 & H8).
  cbn [length] in H6. unfold spsc_shared.
  cbn [set_readIndex m_theQueue m_writeIndex m_readIndex].
  split; [exact H1|]. split; [exact H2|]. split; [apply u32_u32_add|].
  split; [lia|]. split; [lia|]. split; [lia|]. split.
  - intros j Hj. cbn [m_theQueue].
    pose proof (H7 (S j) ltac:(cbn [length]; lia)) as HS.
    replace (C + 1 + Z.of_nat j) with (C + Z.of_nat (S j)) by lia. exact HS.
  - rewrite pushed_values_snoc, popped_values_snoc, H8, app_nil_r.
    now rewrite <- app_assoc.
Qed.

(** What the producer knows survives the steps of the consumer, and what the
    consumer knows survives those of the producer. *)
Lemma producer_ok_frame (q q' : Queue ELEM_T) (P C C' : Z)
  (t : option (Thread ELEM_T)) :
  m_theQueue q' = m_theQueue q -> C <= C' ->
  producer_ok Q_SIZE q P C t -> producer_ok Q_SIZE q' P C' t.
Proof.
  intros Hbuf HC. destruct t as [t|]; [|exact (fun H => H)].
  destruct t; cbn [producer_ok]; try exact (fun H => H).
  - intros (H1 & H2). split; [exact H1 | lia].
  - intros (H1 & H2). rewrite Hbuf. split; [lia | exact H2].
Qed.

Lemma lone_consumer_ok_more (P P' C : Z) (held more : list ELEM_T)
  (t : option (Thread ELEM_T)) :
  P <= P' ->
  lone_consumer_ok P C held t -> lone_consumer_ok P' C (held ++ more) t.
Proof.
  intros HP. destruct t as [t|]; [|exact (fun H => H)].
  destruct t; cbn [lone_consumer_ok]; try exact (fun H => H).
  - intros (P1 & H1 & H2). exists P1. split; [exact H1 | lia].
  - intros (H1 & H2). split; [exact H1 | lia].
  - intros (H1 & H2). split; [exact H1|]. now apply lookup_app_l_Some.
Qed.

Local Abbreviation pushes_only :=
  (Forall (fun c : Call ELEM_T => exists a, c = CallPush a)).
Local Abbreviation pops_only :=
  (Forall (fun c : Call ELEM_T => exists a, c = CallPop a)).

(** A step of the producer. *)
Lemma producer_step_inv (P C : Z) (held : list ELEM_T) (q q' : Queue ELEM_T)
  (h : list (nat * Event ELEM_T)) (prod prod' : Caller ELEM_T)
  (tc : option (Thread ELEM_T)) (e : Event ELEM_T) :
  shared_ok P C held q h ->
  producer_ok Q_SIZE q P C (inside prod) ->
  pushes_only (todo prod) ->
  (Q_SIZE | 2 ^ 32) \/ P + unpublished prod < 2 ^ 32 ->
  lone_consumer_ok P C held tc ->
  caller_step Q_SIZE KEEP_REAL_SIZE q prod = Some (q', prod', e) ->
  exists P' held',
    shared_ok P' C held' q' (h ++ [(0%nat, e)]) /\
    producer_ok Q_SIZE q' P' C (inside prod') /\
    pushes_only (todo prod') /\
    ((Q_SIZE | 2 ^ 32) \/ P' + unpublished prod' < 2 ^ 32) /\
    lone_consumer_ok P' C held' tc.
Proof.
  intros Hsh Hp Htodo Hsafe Hc Hstep.
  destruct prod as [ti td]. cbn [inside todo] in *.
  pose proof Hsh as (Hlen & Hw & Hr & Hle & Hb & Hheld & Hst & Hhist).
  (* entering the next call *)
  assert (Henter :
    (Q_SIZE | 2 ^ 32) \/ P + (0 + Z.of_nat (length td)) < 2 ^ 32 ->
    match td with
    | [] => None
    | x :: xs =>
        match step Q_SIZE KEEP_REAL_SIZE q (enter x) with
        | Some (q', t', e) => Some (q', mkCaller (Some t') xs, e)
        | None => None
        end
    end = Some (q', prod', e) ->
    exists P' held',
      shared_ok P' C held' q' (h ++ [(0%nat, e)]) /\
      producer_ok Q_SIZE q' P' C (inside prod') /\
      pushes_only (todo prod') /\
      ((Q_SIZE | 2 ^ 32) \/ P' + unpublished prod' < 2 ^ 32) /\
      lone_consumer_ok P' C held' tc).
  { intros Hs0 Hst0. destruct td as [|x xs]; [discriminate Hst0|].
    inversion Htodo as [|? ? [a ->] Hxs]; subst.
    cbn [enter step] in Hst0. injection Hst0 as <- <- <-.
    exists P, held. cbn [inside todo unpublished length] in *.
    split; [now apply spsc_shared_quiet|]. split; [exact Hw|].
    split; [exact Hxs|]. split; [|exact Hc].
    unfold unpublished. cbn [inside todo length] in *.
    destruct Hs0; [now left | right; lia]. }
  unfold caller_step in Hstep. cbn [inside todo] in Hstep.
  destruct ti as [t|]; [|now apply Henter].
  destruct t; cbn [producer_ok] in Hp; try contradiction;
    cbn [step] in Hstep; unfold unpublished in *; cbn [inside todo] in *.
  - (* line 47 *)
    injection Hstep as <- <- <-. exists P, held.
    cbn [inside todo unpublished].
    split; [now apply spsc_shared_quiet|]. split; [exact Hw|].
    split; [exact Htodo|]. split; [exact Hsafe | exact Hc].
  - (* line 48 and the full test *)
    injection Hstep as <- <- <-. exists P, held. subst currentWriteIndex.
    split; [now apply spsc_shared_quiet|].
    destruct (slot (u32 (u32 P + 1)) =? slot (m_readIndex q)) eqn:E;
      cbn [inside todo unpublished producer_ok].
    + split; [exact I|]. split; [exact Htodo|]. split; [|exact Hc].
      destruct Hsafe; [now left | right; lia].
    + split; [|split; [exact Htodo | split; [exact Hsafe | exact Hc]]].
      split; [reflexivity|].
      apply Z.eqb_neq in E. rewrite u32_u32_add, Hr in E.
      rewrite !slot_u32 in E
        by (unfold is_u32; destruct Hsafe; [now right | left; lia]).
      destruct (Z.eq_dec (P - C) (Q_SIZE - 1)) as [Heq|Hne]; [|lia].
      exfalso. apply E. apply same_slot_near; lia.
  - (* line 58, the store *)
    injection Hstep as <- <- <-. destruct Hp as (-> & Hroom).
    destruct (spsc_shared_store P C held q h a_data Hsh Hroom) as (Hsh' & Hcell).
    { unfold is_u32. destruct Hsafe; [now right | left; lia]. }
    exists P, held. cbn [inside todo unpublished producer_ok].
    split; [now apply spsc_shared_quiet|]. split; [split; [exact Hroom | exact Hcell]|].
    split; [exact Htodo|]. split; [exact Hsafe | exact Hc].
  - (* line 62, the publication *)
    injection Hstep as <- <- <-. destruct Hp as (Hroom & Hcell).
    exists (P + 1), (held ++ [a_data]).
    split; [now apply spsc_shared_publish|].
    split; [destruct KEEP_REAL_SIZE; exact I|].
    split; [exact Htodo|]. split.
    + destruct Hsafe; [now left | right].
      destruct KEEP_REAL_SIZE; cbn [inside todo unpublished]; lia.
    + apply (lone_consumer_ok_more P); [lia | exact Hc].
  - (* line 66 *)
    injection Hstep as <- <- <-. exists P, held.
    cbn [inside todo unpublished producer_ok].
    split; [apply spsc_shared_quiet; [now apply spsc_shared_count | exact I]|].
    split; [exact I|]. split; [exact Htodo|]. split; [exact Hsafe | exact Hc].
  - (* returned: the next call *)
    now apply Henter.
Qed.

(** A step of the consumer. *)
Lemma consumer_step_inv (P C : Z) (held : list ELEM_T) (q q' : Queue ELEM_T)
  (h : list (nat * Event ELEM_T)) (cons cons' : Caller ELEM_T)
  (tp : option (Thread ELEM_T)) (e : Event ELEM_T) :
  shared_ok P C held q h ->
  lone_consumer_ok P C held (inside cons) ->
  pops_only (todo cons) ->
  producer_ok Q_SIZE q P C tp ->
  caller_step Q_SIZE KEEP_REAL_SIZE q cons = Some (q', cons', e) ->
  exists C' held',
    shared_ok P C' held' q' (h ++ [(1%nat, e)]) /\
    lone_consumer_ok P C' held' (inside cons') /\
    pops_only (todo cons') /\
    producer_ok Q_SIZE q' P C' tp.
Proof.
  intros Hsh Hc Htodo Hp Hstep.
  destruct cons as [ti td]. cbn [inside todo] in *.
  pose proof Hsh as (Hlen & Hw & Hr & Hle & Hb & Hheld & Hst & Hhist).
  assert (Henter :
    match td with
    | [] => None
    | x :: xs =>
        match step Q_SIZE KEEP_REAL_SIZE q (enter x) with
        | Some (q', t', e) => Some (q', mkCaller (Some t') xs, e)
        | None => None
        end
    end = Some (q', cons', e) ->
    exists C' held',
      shared_ok P C' held' q' (h ++ [(1%nat, e)]) /\
      lone_consumer_ok P C' held' (inside cons') /\
      pops_only (todo cons') /\
      producer_ok Q_SIZE q' P C' tp).
  { intros Hst0. destruct td as [|x xs]; [discriminate Hst0|].
    inversion Htodo as [|? ? [a ->] Hxs]; subst.
    cbn [enter step] in Hst0. injection Hst0 as <- <- <-.
    exists C, held. cbn [inside todo lone_consumer_ok].
    split; [now apply spsc_shared_quiet|].
    split; [exists P; split; [exact Hw | lia]|].
    split; [exact Hxs | exact Hp]. }
  unfold caller_step in Hstep. cbn [inside todo] in Hstep.
  destruct ti as [t|]; [|now apply Henter].
  destruct t; cbn [lone_consumer_ok] in Hc; try contradiction;
    cbn [step] in Hstep.
  - (* line 83 *)
    injection Hstep as <- <- <-. exists C, held. cbn [inside todo lone_consumer_ok].
    split; [now apply spsc_shared_quiet|].
    split; [exists P; split; [exact Hw | lia]|].
    split; [exact Htodo | exact Hp].
  - (* line 84 and the emptiness test *)
    injection Hstep as <- <- <-. exists C, held.
    destruct Hc as (P1 & -> & HP1).
    split; [now apply spsc_shared_quiet|].
    destruct (slot (m_readIndex q) =? slot (u32 P1)) eqn:E;
      cbn [inside todo lone_consumer_ok].
    + split; [exact I|]. split; [exact Htodo | exact Hp].
    + split; [|split; [exact Htodo | exact Hp]].
      split; [exact Hr|].
      apply Z.eqb_neq in E. rewrite Hr in E.
      destruct (Z.eq_dec C P1) as [-> | Hne]; [now contradiction E | lia].
  - (* line 96, the copy *)
    injection Hstep as <- <- <-. exists C, held.
    destruct Hc as (-> & HCP).
    split; [now apply spsc_shared_quiet|].
    split; [|split; [exact Htodo | exact Hp]].
    cbn [inside lone_consumer_ok]. split; [reflexivity|].
    destruct held as [|v held]; [cbn [length] in Hheld; lia|].
    pose proof (Hst 0%nat ltac:(cbn [length]; lia)) as H0.
    rewrite Z.add_0_r in H0. unfold load_slot. rewrite H0. reflexivity.
  - (* line 101, the compare-and-swap *)
    destruct Hc as (-> & Hhead).
    unfold CAS in Hstep. rewrite Hr, Z.eqb_refl in Hstep.
    injection Hstep as <- <- <-.
    destruct held as [|v held]; [discriminate Hhead|].
    cbn in Hhead. injection Hhead as ->.
    exists (C + 1), held.
    split; [now apply spsc_shared_claim|].
    split; [destruct KEEP_REAL_SIZE; exact I|].
    split; [exact Htodo|].
    cbn [length] in Hheld.
    apply (producer_ok_frame q _ P C); [reflexivity | lia | exact Hp].
  - (* line 107 *)
    injection Hstep as <- <- <-. exists C, held. cbn [inside todo lone_consumer_ok].
    split; [apply spsc_shared_quiet; [now apply spsc_shared_count | exact I]|].
    split; [exact I|]. split; [exact Htodo|].
    apply (producer_ok_frame q _ P C); [reflexivity | lia | exact Hp].
  - (* returned: the next call *)
    now apply Henter.
Qed.

(** A step of either caller, or of nobody. *)
Lemma crowd_step_inv (P C : Z) (held : list ELEM_T) (s : Crowd ELEM_T) (i : nat) :
  spsc_inv Q_SIZE P C held s ->
  exists P' C' held',
    spsc_inv Q_SIZE P' C' held' (crowd_step Q_SIZE KEEP_REAL_SIZE s i).
Proof.
  intros Hinv. pose proof Hinv as (prod & cons & Hcs & Hsh & Hp & Htp & Hc & Htc & Hsafe).
  unfold crowd_step. rewrite Hcs.
  destruct i as [|[|i]]; cbn [lookup list_lookup].
  - destruct (caller_step Q_SIZE KEEP_REAL_SIZE (queue_of s) prod)
      as [[[q' prod'] e]|] eqn:E; [|exists P, C, held; exact Hinv].
    destruct (producer_step_inv P C held _ _ _ _ _ (inside cons) _ Hsh Hp Htp Hsafe Hc E)
      as (P' & held' & H1 & H2 & H3 & H4 & H5).
    exists P', C, held', prod', cons. cbn [callers queue_of events].
    split; [reflexivity|]. split; [exact H1|]. split; [exact H2|]. split; [exact H3|].
    split; [exact H5|]. split; [exact Htc | exact H4].
  - destruct (caller_step Q_SIZE KEEP_REAL_SIZE (queue_of s) cons)
      as [[[q' cons'] e]|] eqn:E; [|exists P, C, held; exact Hinv].
    destruct (consumer_step_inv P C held _ _ _ _ _ (inside prod) _ Hsh Hc Htc Hp E)
      as (C' & held' & H1 & H2 & H3 & H4).
    exists P, C', held', prod, cons'. cbn [callers queue_of events].
    split; [reflexivity|]. split; [exact H1|]. split; [exact H4|]. split; [exact Htp|].
    split; [exact H2|]. split; [exact H3 | exact Hsafe].
  - exists P, C, held. exact Hinv.
Qed.

Lemma run_crowd_inv (sch : list nat) (P C : Z) (held : list ELEM_T) (s : Crowd ELEM_T) :
  spsc_inv Q_SIZE P C held s ->
  exists P' C' held',
    spsc_inv Q_SIZE P' C' held' (run_crowd Q_SIZE KEEP_REAL_SIZE sch s).
Proof.
  unfold run_crowd. revert P C held s.
  induction sch as [|i sch IH]; intros P C held s Hinv; cbn [fold_left].
  - exists P, C, held. exact Hinv.
  - destruct (crowd_step_inv P C held s i Hinv) as (P' & C' & held' & H').
    exact (IH P' C' held' _ H').
Qed.

(** One producer pushing [vs] call after call and one consumer popping call
    after call, on a fresh queue, under any schedule: at every moment the
    values published are the values handed out, in the same order, followed
    by at most [Q_SIZE - 1] values that the cells still hold.  This for a
    capacity that divides [2^32], and for any capacity when the producer
    makes fewer than [2^32] calls. *)
Theorem single_consumer_fifo (cells vs ds : list ELEM_T) (sch : list nat) :
  length cells = Z.to_nat Q_SIZE ->
  (Q_SIZE | 2 ^ 32) \/ Z.of_nat (length vs) < 2 ^ 32 ->
  let s := run_crowd Q_SIZE KEEP_REAL_SIZE sch (one_producer_one_consumer cells vs ds) in
  exists held,
    pushed_values (events s) = popped_values (events s) ++ held /\
    Z.of_nat (length held) <= Q_SIZE - 1 /\
    length (m_theQueue (queue_of s)) = Z.to_nat Q_SIZE.
Proof.
  intros Hlen Hsafe s.
  assert (H0 : spsc_inv Q_SIZE 0 0 [] (one_producer_one_consumer cells vs ds)).
  { exists (mkCaller None (map CallPush vs)), (mkCaller None (map CallPop ds)).
    split; [reflexivity|]. split.
    - unfold spsc_shared. cbn. repeat split; try lia; try exact Hlen.
      intros j Hj. cbn in Hj. lia.
    - cbn [inside todo producer_ok lone_consumer_ok].
      split; [exact I|]. split; [apply Forall_map, Forall_forall; intros a _; now exists a|].
      split; [exact I|]. split; [apply Forall_map, Forall_forall; intros a _; now exists a|].
      unfold unpublished. cbn [inside todo]. rewrite length_map.
      destruct Hsafe; [now left | right; lia]. }
  destruct (run_crowd_inv sch 0 0 [] _ H0)
    as (P & C & held & prod & cons & _ & Hsh & _).
  fold s in Hsh. destruct Hsh as (H1 & _ & _ & _ & H5 & H6 & _ & H8).
  exists held. split; [exact H8|]. split; [lia | exact H1].
Qed.

End Spsc.

Lemma single_consumer_fifo_witness :
  exists held,
    pushed_values
      (events (run_crowd 4 true [1; 0; 0; 0; 0; 0; 1; 1; 1; 1; 0; 1; 1; 0; 0; 0; 1; 1]%nat
                 (one_producer_one_consumer [0; 0; 0; 0] [10; 20; 30] [0; 0])))
    = popped_values
        (events (run_crowd 4 true [1; 0; 0; 0; 0; 0; 1; 1; 1; 1; 0; 1; 1; 0; 0; 0; 1; 1]%nat
                   (one_producer_one_consumer [0; 0; 0; 0] [10; 20; 30] [0; 0])))
      ++ held.
Proof.
  destruct (single_consumer_fifo 4 true ltac:(lia) [0; 0; 0; 0] [10; 20; 30] [0; 0]
              [1; 0; 0; 0; 0; 0; 1; 1; 1; 1; 0; 1; 1; 0; 0; 0; 1; 1]%nat)
    as (held & H & _).
  - reflexivity.
  - left. exists (2 ^ 30). reflexivity.
  - exists held. exact H.
Defined.

(** ** A lost compare-and-swap *)

Lemma another_claimed_snoc {ELEM_T : Type} (i k : nat) (h : list (nat * Event ELEM_T))
  (e : Event ELEM_T) :
  another_claimed i (h ++ [(k, e)]) =
  another_claimed i h ||
  (negb (k =? i)%nat && match e with EvCAS true _ => true | _ => false end).
Proof.
  unfold another_claimed. rewrite existsb_app. cbn [existsb fst snd].
  now rewrite orb_false_r.
Qed.

Lemma events_of_snoc {ELEM_T : Type} (i k : nat) (h : list (nat * Event ELEM_T))
  (e : Event ELEM_T) :
  events_of i (h ++ [(k, e)]) = events_of i h ++ (if (k =? i)%nat then [e] else []).
Proof.
  unfold events_of. rewrite flat_map_app. cbn [flat_map fst snd].
  now rewrite app_nil_r.
Qed.

Lemma lost_by_snoc {ELEM_T : Type} (i k : nat) (h : list (nat * Event ELEM_T))
  (e : Event ELEM_T) :
  lost_by i (h ++ [(k, e)]) =
  (lost_by i h +
   match e with EvCAS false _ => if (k =? i)%nat then 1 else 0 | _ => 0 end)%nat.
Proof.
  unfold lost_by. rewrite flat_map_app, length_app. cbn [flat_map fst snd].
  f_equal. destruct e as [| | | | | | | |[|] x]; try reflexivity.
  now destruct (k =? i)%nat.
Qed.

Lemma won_by_others_app {ELEM_T : Type} (i : nat) (h h' : list (nat * Event ELEM_T)) :
  won_by_others i (h ++ h') = (won_by_others i h + won_by_others i h')%nat.
Proof. unfold won_by_others. now rewrite flat_map_app, length_app. Qed.

Lemma another_claimed_counts {ELEM_T : Type} (i : nat) (h : list (nat * Event ELEM_T)) :
  another_claimed i h = true -> (1 <= won_by_others i h)%nat.
Proof.
  unfold another_claimed, won_by_others.
  induction h as [|[k e] h IH]; cbn [existsb flat_map fst snd]; [discriminate|].
  rewrite length_app. intros H. apply orb_true_iff in H. destruct H as [H | H].
  - apply andb_true_iff in H. destruct H as (Hk & He).
    apply negb_true_iff in Hk. rewrite Hk.
    destruct e as [| | | | | | | |[|] x]; try discriminate. cbn [length]. lia.
  - specialize (IH H). lia.
Qed.

(** What a step does to [m_readIndex], to the value of it a thread holds and
    to what the thread has done since it loaded that value. *)
Lemma step_read_index {ELEM_T : Type} (Q_SIZE : Z) (KEEP_REAL_SIZE : bool)
  (q q' : Queue ELEM_T) (t t' : Thread ELEM_T) (e : Event ELEM_T) :
  step Q_SIZE KEEP_REAL_SIZE q t = Some (q', t', e) ->
  (m_readIndex q' = m_readIndex q \/ exists x, e = EvCAS true x) /\
  (forall a, e = EvCAS false a ->
             exists cri, read_index_held t = Some cri /\ m_readIndex q <> cri /\
                         done_since_load Q_SIZE t
                         = [EvLoadSlot (countToIndex Q_SIZE cri) a]) /\
  (forall cri, read_index_held t' = Some cri ->
               match e with EvCAS _ _ => False | _ => True end /\
               ((e = EvLoadReadIndex cri /\ m_readIndex q' = cri /\
                 done_since_load Q_SIZE t' = []) \/
                (read_index_held t = Some cri /\ m_readIndex q' = m_readIndex q /\
                 done_since_load Q_SIZE t' = done_since_load Q_SIZE t ++ [e]))).
Proof.
  destruct t; cbn [step read_index_held done_since_load];
    try discriminate;
    try match goal with
        | |- context [CAS ?c ?o ?v] => unfold CAS; destruct (c =? o) eqn:E
        end;
    try match goal with
        | |- context [if KEEP_REAL_SIZE then Some _ else Some _] =>
            destruct KEEP_REAL_SIZE
        end;
    intros H; injection H as <- <- <-;
    repeat match goal with
           | |- context [if ?b then _ else _] => destruct b
           end;
    cbn [read_index_held done_since_load set_theQueue set_writeIndex set_readIndex
         set_count m_readIndex app];
    (split; [first [now left | right; eexists; reflexivity]|]);
    (split; [intros ? [=]|intros ? [=]]); subst; auto.
  eexists. split; [reflexivity|]. split; [now apply Z.eqb_neq | reflexivity].
Qed.

Lemma sched_step_watching {ELEM_T : Type} (Q_SIZE : Z) (KEEP_REAL_SIZE : bool)
  (s : System ELEM_T) (k : nat) :
  watching Q_SIZE s /\ failures_explained Q_SIZE (history s) /\
  retries_paid (history s) ->
  watching Q_SIZE (sched_step Q_SIZE KEEP_REAL_SIZE s k) /\
  failures_explained Q_SIZE (history (sched_step Q_SIZE KEEP_REAL_SIZE s k)) /\
  retries_paid (history (sched_step Q_SIZE KEEP_REAL_SIZE s k)).
Proof.
  intros (Hw & He & Hp). unfold sched_step.
  destruct (threads s !! k) as [t|] eqn:Et; [|now repeat split].
  destruct (step Q_SIZE KEEP_REAL_SIZE (shared s) t) as [[[q' t'] e]|] eqn:Es;
    [|now repeat split].
  destruct (step_read_index _ _ _ _ _ _ _ Es) as (Hr & Hf & Hh).
  assert (Hk : (k < length (threads s))%nat) by (eapply lookup_lt_Some; eauto).
  split; [|split].
  - intros i ti cri Hi Hheld. cbn [threads history shared] in *.
    destruct (Nat.eq_dec i k) as [-> | Hne].
    + rewrite list_lookup_insert_eq in Hi by exact Hk. injection Hi as <-.
      destruct (Hh cri Hheld) as (Hnc & [(-> & Hq & Hd) | (Hold & Hq & Hd)]).
      * exists (history s), []. split; [reflexivity|]. split; [now rewrite Hd|].
        split; [|intros Hc; now destruct Hc].
        rewrite lost_by_snoc, Nat.add_0_r. apply Hp.
      * destruct (Hw k t cri Et Hold) as (h0 & hm & Hhist & Hev & Hlost & Hcl).
        exists h0, (hm ++ [(k, e)]). split; [|split; [|split]].
        -- rewrite Hhist, <- app_assoc. reflexivity.
        -- rewrite events_of_snoc, Nat.eqb_refl, Hev, Hd. reflexivity.
        -- rewrite lost_by_snoc. destruct e; try contradiction; lia.
        -- intros Hc. rewrite another_claimed_snoc, Hcl; [reflexivity|congruence].
    + rewrite list_lookup_insert_ne in Hi by congruence.
      assert (Hki : (k =? i)%nat = false) by (apply Nat.eqb_neq; congruence).
      destruct (Hw i ti cri Hi Hheld) as (h0 & hm & Hhist & Hev & Hlost & Hcl).
      exists h0, (hm ++ [(k, e)]). split; [|split; [|split]].
      * rewrite Hhist, <- app_assoc. reflexivity.
      * rewrite events_of_snoc, Hki, app_nil_r. exact Hev.
      * rewrite lost_by_snoc, Hki. destruct e as [| | | | | | | |[|] x]; lia.
      * intros Hc. rewrite another_claimed_snoc.
        destruct Hr as [Hr | (x & ->)].
        -- rewrite Hcl; [reflexivity|congruence].
        -- rewrite Hki. apply orb_true_iff. now right.
  - intros h1 i a h2 Heq. cbn [history] in Heq.
    induction h2 as [|z h2' _] using rev_ind.
    + apply app_inj_tail in Heq. destruct Heq as (<- & [= -> ->]).
      destruct (Hf a eq_refl) as (cri & Hheld & Hne & Hd).
      destruct (Hw i t cri Et Hheld) as (h0 & hm & Hhist & Hev & _ & Hcl).
      exists h0, cri, hm. split; [exact Hhist|].
      split; [now rewrite Hev | now apply Hcl].
    + change (h1 ++ (i, EvCAS false a) :: h2' ++ [z])
        with (h1 ++ ((i, EvCAS false a) :: h2') ++ [z]) in Heq.
      rewrite app_assoc in Heq. apply app_inj_tail in Heq. destruct Heq as (Heq & _).
      exact (He h1 i a h2' Heq).
  - intros i. cbn [history]. rewrite lost_by_snoc, won_by_others_app.
    specialize (Hp i).
    destruct e as [| | | | | | | |[|] a]; try lia.
    destruct (k =? i)%nat eqn:Hki; [|lia]. apply Nat.eqb_eq in Hki. subst k.
    destruct (Hf a eq_refl) as (cri & Hheld & Hne & _).
    destruct (Hw i t cri Et Hheld) as (h0 & hm & Hhist & _ & Hlost & Hcl).
    pose proof (another_claimed_counts i hm (Hcl Hne)) as Hone.
    assert (Hwon : won_by_others i (history s)
                   = (won_by_others i h0 + won_by_others i hm)%nat).
    { rewrite Hhist.
      change (h0 ++ (i, EvLoadReadIndex cri) :: hm)
        with (h0 ++ [(i, EvLoadReadIndex cri)] ++ hm).
      rewrite !won_by_others_app. unfold won_by_others at 2. cbn. lia. }
    lia.
Qed.

(** The three hold after any run from threads that hold no read index. *)
Lemma run_schedule_watching {ELEM_T : Type} (Q_SIZE : Z) (KEEP_REAL_SIZE : bool)
  (q : Queue ELEM_T) (ts : list (Thread ELEM_T)) (sch : list nat) :
  Forall (fun t => read_index_held t = None) ts ->
  let s := run_schedule Q_SIZE KEEP_REAL_SIZE sch (mkSystem q ts []) in
  watching Q_SIZE s /\ failures_explained Q_SIZE (history s) /\
  retries_paid (history s).
Proof.
  intros Hts. cbv zeta. unfold run_schedule.
  assert (H0 : watching Q_SIZE (mkSystem q ts []) /\
               failures_explained Q_SIZE (history (mkSystem q ts [])) /\
               retries_paid (history (mkSystem q ts []))).
  { split; [|split].
    - intros j t cri Hj Hheld. cbn [threads] in Hj.
      rewrite Forall_lookup in Hts. rewrite (Hts j t Hj) in Hheld. discriminate.
    - intros l1 j b l2 Heq. cbn [history] in Heq. now destruct l1.
    - intros j. cbn. lia. }
  revert H0. generalize (mkSystem q ts []).
  induction sch as [|k sch IH]; intros s Hs; cbn [fold_left]; [exact Hs|].
  apply IH. now apply sched_step_watching.
Qed.

(** Lock-freedom of [pop], on the events: whatever the threads (none of them
    between the load and the compare-and-swap at the start) and whatever the
    schedule.  A compare-and-swap that thread [i] loses ends a pass of the
    loop of its own: before it [i] loaded [m_readIndex], since then [i] did
    nothing but copy the cell of the value loaded into its [a_data], and
    meanwhile another thread won a compare-and-swap.  So a [pop] goes round
    its loop only when another [pop] has taken an element since it last
    loaded [m_readIndex], and no thread loses more compare-and-swaps than the
    other threads win. *)
Theorem failed_cas_means_another_pop_won {ELEM_T : Type} (Q_SIZE : Z)
  (KEEP_REAL_SIZE : bool) (q : Queue ELEM_T) (ts : list (Thread ELEM_T))
  (sch : list nat) :
  Forall (fun t => read_index_held t = None) ts ->
  let h := history (run_schedule Q_SIZE KEEP_REAL_SIZE sch (mkSystem q ts [])) in
  (forall h1 i a h2,
     h = h1 ++ (i, EvCAS false a) :: h2 ->
     exists h0 v hm,
       h1 = h0 ++ (i, EvLoadReadIndex v) :: hm /\
       events_of i hm = [EvLoadSlot (countToIndex Q_SIZE v) a] /\
       another_claimed i hm = true) /\
  (forall i, (lost_by i h <= won_by_others i h)%nat).
Proof.
  intros Hts h.
  destruct (run_schedule_watching Q_SIZE KEEP_REAL_SIZE q ts sch Hts)
    as (_ & Hex & Hpaid).
  exact (conj Hex Hpaid).
Qed.

Lemma failed_cas_means_another_pop_won_witness :
  (exists h0 v hm,
     [(0%nat, EvLoadWriteIndex 1); (0%nat, EvLoadReadIndex 0); (0%nat, EvLoadSlot 0 7);
      (1%nat, EvLoadWriteIndex 1); (1%nat, EvLoadReadIndex 0); (1%nat, EvLoadSlot 0 7);
      (1%nat, EvCAS true 7); (1%nat, EvSubCount)]
     = h0 ++ (0%nat, EvLoadReadIndex v) :: hm /\
     events_of 0 hm = [EvLoadSlot (countToIndex 4 v) 7] /\
     another_claimed 0 hm = true) /\
  (lost_by 0 (history (run_schedule 4 true [0; 0; 0; 1; 1; 1; 1; 1; 0; 0; 0]%nat
                         (mkSystem (mkQueue [7; 0; 0; 0] 1 0 1)
                            [PopL83 100; PopL83 200] [])))
   <= won_by_others 0
        (history (run_schedule 4 true [0; 0; 0; 1; 1; 1; 1; 1; 0; 0; 0]%nat
                    (mkSystem (mkQueue [7; 0; 0; 0] 1 0 1)
                       [PopL83 100; PopL83 200] []))))%nat.
Proof.
  destruct (failed_cas_means_another_pop_won 4 true (mkQueue [7; 0; 0; 0] 1 0 1)
              [PopL83 100; PopL83 200] [0; 0; 0; 1; 1; 1; 1; 1; 0; 0; 0]%nat)
    as (Hwindow & Hcount); [repeat constructor|].
  split; [|exact (Hcount 0%nat)].
  apply (Hwindow _ 0%nat 7 [(0%nat, EvLoadWriteIndex 1); (0%nat, EvLoadReadIndex 1)]).
  reflexivity.
Defined.

(** ** One consumer never retries *)





(** ** Two producers *)

(** The specialisation is for one producer.  With two, on an empty queue
    of capacity at least two: both load the same [m_writeIndex], both store
    into the same cell, both add one to [m_writeIndex] and both return
    [true].  The pops that follow return the second value, then whatever the
    next cell held before, then [false]: the first value is lost. *)
Theorem two_producers_lose_a_value {ELEM_T : Type} (Q_SIZE : Z)
  (KEEP_REAL_SIZE : bool) (q : Queue ELEM_T) (a b y d1 d2 d3 : ELEM_T) :
  3 <= Q_SIZE -> length (m_theQueue q) = Z.to_nat Q_SIZE ->
  0 <= m_writeIndex q -> m_writeIndex q + 2 < 2 ^ 32 ->
  m_readIndex q = m_writeIndex q ->
  m_theQueue q !! Z.to_nat (countToIndex Q_SIZE (m_writeIndex q + 1)) = Some y ->
  let s := run_schedule Q_SIZE KEEP_REAL_SIZE [0; 0; 1; 1; 0; 1; 0; 1; 0; 1]%nat
             (mkSystem q [PushL47 a; PushL47 b] []) in
  threads s = [PushRet true; PushRet true] /\
  pushed_values (history s) = [a; b] /\
  exists q1 q2,
    pop Q_SIZE KEEP_REAL_SIZE (shared s) d1 = (true, q1, b) /\
    pop Q_SIZE KEEP_REAL_SIZE q1 d2 = (true, q2, y) /\
    pop Q_SIZE KEEP_REAL_SIZE q2 d3 = (false, q2, d3).
Proof.
  destruct q as [buf w r c]. cbn [m_theQueue m_writeIndex m_readIndex].
  intros HQ Hlen Hw0 Hw2 -> Hy.
  assert (H1 : u32 (w + 1) = w + 1) by (apply u32_small; unfold is_u32; lia).
  assert (H2 : u32 (w + 1 + 1) = w + 2)
    by (replace (w + 1 + 1) with (w + 2) by lia; apply u32_small; unfold is_u32; lia).
  assert (N10 : countToIndex Q_SIZE (w + 1) <> countToIndex Q_SIZE w)
    by (unfold countToIndex; intros E; apply same_slot_near in E; lia).
  assert (N20 : countToIndex Q_SIZE (w + 2) <> countToIndex Q_SIZE w)
    by (unfold countToIndex; intros E; apply same_slot_near in E; lia).
  assert (N21 : countToIndex Q_SIZE (w + 2) <> countToIndex Q_SIZE (w + 1))
    by (unfold countToIndex; intros E; apply same_slot_near in E; lia).
  pose proof (countToIndex_range Q_SIZE w ltac:(lia)) as R0.
  pose proof (countToIndex_range Q_SIZE (w + 1) ltac:(lia)) as R1.
  assert (Hroom : (countToIndex Q_SIZE (w + 1) =? countToIndex Q_SIZE w) = false)
    by now apply Z.eqb_neq.
  unfold run_schedule.
  assert (Hs : let s := fold_left (sched_step Q_SIZE KEEP_REAL_SIZE)
                 [0; 0; 1; 1; 0; 1; 0; 1; 0; 1]%nat
                 (mkSystem (mkQueue buf w w c) [PushL47 a; PushL47 b] []) in
               threads s = [PushRet true; PushRet true] /\
               pushed_values (history s) = [a; b] /\
               shared s =
               mkQueue (store_slot (countToIndex Q_SIZE w) b
                          (store_slot (countToIndex Q_SIZE w) a buf))
                 (w + 2) w
                 (if KEEP_REAL_SIZE then u32 (u32 (c + 1) + 1) else c)).
  { destruct KEEP_REAL_SIZE;
      repeat first
        [ rewrite H1 | rewrite H2 | rewrite Hroom
        | progress unfold AtomicAdd
        | progress cbn -[countToIndex u32 Z.eqb Z.add store_slot] ];
      repeat split; reflexivity. }
  cbv zeta in Hs. destruct Hs as (Ht & Hp & Hq).
  split; [exact Ht|]. split; [exact Hp|]. rewrite Hq. clear Ht Hp Hq.
  set (cells := store_slot (countToIndex Q_SIZE w) b
                  (store_slot (countToIndex Q_SIZE w) a buf)).
  set (c2 := if KEEP_REAL_SIZE then u32 (u32 (c + 1) + 1) else c).
  set (c1 := if KEEP_REAL_SIZE then u32 (c2 - 1) else c2).
  set (c0 := if KEEP_REAL_SIZE then u32 (c1 - 1) else c1).
  exists (mkQueue cells (w + 2) (w + 1) c1), (mkQueue cells (w + 2) (w + 2) c0).
  split; [|split].
  - rewrite pop_ok_eq by (cbn [m_readIndex m_writeIndex]; congruence).
    cbn [m_readIndex m_writeIndex m_theQueue m_count]. rewrite H1.
    f_equal. unfold load_slot, cells, store_slot.
    rewrite list_lookup_insert_eq; [reflexivity|].
    rewrite length_insert. lia.
  - rewrite pop_ok_eq by (cbn [m_readIndex m_writeIndex]; congruence).
    cbn [m_readIndex m_writeIndex m_theQueue m_count]. rewrite H2.
    f_equal. unfold load_slot, cells, store_slot.
    do 2 (rewrite list_lookup_insert_ne by (intros E; apply Z2Nat.inj in E; lia)).
    rewrite Hy. reflexivity.
  - apply pop_empty_eq. reflexivity.
Qed.

Lemma two_producers_lose_a_value_witness :
  exists q1 q2,
    pop 4 true
      (shared (run_schedule 4 true [0; 0; 1; 1; 0; 1; 0; 1; 0; 1]%nat
                 (mkSystem (ArrayLockFreeQueueBase [91; 92; 93; 94])
                    [PushL47 10; PushL47 20] []))) 0
    = (true, q1, 20) /\
    pop 4 true q1 0 = (true, q2, 92) /\
    pop 4 true q2 0 = (false, q2, 0).
Proof.
  destruct (two_producers_lose_a_value 4 true (ArrayLockFreeQueueBase [91; 92; 93; 94])
              10 20 92 0 0 0) as (_ & _ & H).
  - lia.
  - reflexivity.
  - reflexivity.
  - reflexivity.
  - reflexivity.
  - reflexivity.
  - exact H.
Defined.
